(** * gpumaths: environments, sizing, streams and serialization

    A shallow embedding of the Go side of the batched accelerator
    pipeline: the fixed-width environments and their selector
    ([chooseEnv]), the sizing helpers ([maxSlots],
    [streamSizeContaining]), stream creation and destruction over the
    native library ([createStreams], [destroyStreams]), the byte
    serializer ([putInt]) and the stubbed build.

    Go's [int] is the 64-bit two's-complement integer of the linux/gpu
    build; it is modelled as [Z] with the wrap-around written out.  A Go
    panic is the [Panic] outcome. *)

From Stdlib Require Import ZArith Lia String DecimalString HexadecimalString
  Strings.Byte.
From stdpp Require Import base option list gmap sets.

Local Open Scope Z_scope.
Set Warnings "-clear-no-such-hyp".

(** ** Outcomes: a returned value or a run-time panic *)

Inductive outcome (A : Type) : Type :=
| Ret (a : A)
| Panic (msg : string).
Arguments Ret {A} a.
Arguments Panic {A} msg.

#[global] Instance outcome_ret : MRet outcome := fun _ a => Ret a.
#[global] Instance outcome_bind : MBind outcome := fun _ _ f m =>
  match m with
  | Ret a => f a
  | Panic msg => Panic msg
  end.

Definition returns {A : Type} (m : outcome A) : Prop :=
  match m with Ret _ => True | Panic _ => False end.

(** ** Go's [int] *)

Module GoInt.

Definition bits : Z := 64.
Definition modulus : Z := 2 ^ bits.
Definition min_int : Z := - 2 ^ (bits - 1).
Definition max_int : Z := 2 ^ (bits - 1) - 1.

Definition in_range (z : Z) : Prop := min_int <= z <= max_int.

(** The value an [int] holds after an operation whose exact result is
    [z]; also the conversion [int(x)] of a wider or unsigned value. *)
Definition wrap (z : Z) : Z := (z - min_int) mod modulus + min_int.

Definition add (a b : Z) : Z := wrap (a + b).
Definition sub (a b : Z) : Z := wrap (a - b).
Definition mul (a b : Z) : Z := wrap (a * b).

(** [a / b]: truncated division, a run-time panic on a zero divisor. *)
Definition div (a b : Z) : outcome Z :=
  if b =? 0 then Panic "runtime error: integer divide by zero"
  else Ret (wrap (a ÷ b)).

End GoInt.

(** [len(x)] of a slice. *)
Definition len {A : Type} (l : list A) : Z := Z.of_nat (length l).

(** ** Environments *)

Inductive gpumathsEnv : Type :=
| gpumaths2048
| gpumaths3200
| gpumaths4096.

Definition getBitLen (g : gpumathsEnv) : Z :=
  match g with
  | gpumaths2048 => 2048
  | gpumaths3200 => 3200
  | gpumaths4096 => 4096
  end.

Definition getByteLen (g : gpumathsEnv) : Z :=
  match g with
  | gpumaths2048 => 2048 ÷ 8
  | gpumaths3200 => 3200 ÷ 8
  | gpumaths4096 => 4096 ÷ 8
  end.

(** The group collaborator, as far as [chooseEnv] reads it: the prime,
    its bit length (the length of the absolute value, 0 for 0) and its
    base-16 text.  [Text] of the integer library gives the first 10
    characters of the lower-case digits followed by an ellipsis when
    there are more than 10. *)
Record Group : Type := { GetP : Z }.

Definition BitLen (x : Z) : Z :=
  if x =? 0 then 0 else Z.log2 (Z.abs x) + 1.

Definition intTextLen : nat := 10.

Definition Text16 (x : Z) : string :=
  let fullText := HexadecimalString.NilZero.string_of_int (Z.to_hex_int x) in
  if (String.length fullText <=? intTextLen)%nat then fullText
  else String.substring 0 intTextLen fullText ++ "...".

Definition chooseEnv (g : Group) : outcome gpumathsEnv :=
  let primeLen := BitLen (GetP g) in
  let len2048 := getBitLen gpumaths2048 in
  let len3200 := getBitLen gpumaths3200 in
  let len4096 := getBitLen gpumaths4096 in
  if primeLen <=? len2048 then Ret gpumaths2048
  else if primeLen <=? len3200 then Ret gpumaths3200
  else if primeLen <=? len4096 then Ret gpumaths4096
  else Panic ("Prime " ++ Text16 (GetP g)
              ++ " was too big for any available gpumaths environment").

(** ** Sizing *)

(** The size queries of the native header [powm_odd_export.h], one per
    environment, over the kernel enumeration; [enum_kernel_of_int] is
    the conversion [C.enum_kernel(k)] of a Go [int]. *)
Record powm_odd_export (enum_kernel : Type) : Type := {
  getInputSize2048 : enum_kernel -> Z;
  getInputSize3200 : enum_kernel -> Z;
  getInputSize4096 : enum_kernel -> Z;
  getOutputSize2048 : enum_kernel -> Z;
  getOutputSize3200 : enum_kernel -> Z;
  getOutputSize4096 : enum_kernel -> Z;
  getConstantsSize2048 : enum_kernel -> Z;
  getConstantsSize3200 : enum_kernel -> Z;
  getConstantsSize4096 : enum_kernel -> Z;
  enum_kernel_of_int : Z -> enum_kernel
}.
Arguments getInputSize2048 {enum_kernel} _ _.
Arguments getInputSize3200 {enum_kernel} _ _.
Arguments getInputSize4096 {enum_kernel} _ _.
Arguments getOutputSize2048 {enum_kernel} _ _.
Arguments getOutputSize3200 {enum_kernel} _ _.
Arguments getOutputSize4096 {enum_kernel} _ _.
Arguments getConstantsSize2048 {enum_kernel} _ _.
Arguments getConstantsSize3200 {enum_kernel} _ _.
Arguments getConstantsSize4096 {enum_kernel} _ _.
Arguments enum_kernel_of_int {enum_kernel} _ _.

Section Sizing.
Context {enum_kernel : Type} (C : powm_odd_export enum_kernel).

Definition getInputSize (g : gpumathsEnv) (kernel : enum_kernel) : Z :=
  match g with
  | gpumaths2048 => GoInt.wrap (getInputSize2048 C kernel)
  | gpumaths3200 => GoInt.wrap (getInputSize3200 C kernel)
  | gpumaths4096 => GoInt.wrap (getInputSize4096 C kernel)
  end.

Definition getOutputSize (g : gpumathsEnv) (kernel : enum_kernel) : Z :=
  match g with
  | gpumaths2048 => GoInt.wrap (getOutputSize2048 C kernel)
  | gpumaths3200 => GoInt.wrap (getOutputSize3200 C kernel)
  | gpumaths4096 => GoInt.wrap (getOutputSize4096 C kernel)
  end.

Definition getConstantsSize (g : gpumathsEnv) (kernel : enum_kernel) : Z :=
  match g with
  | gpumaths2048 => GoInt.wrap (getConstantsSize2048 C kernel)
  | gpumaths3200 => GoInt.wrap (getConstantsSize3200 C kernel)
  | gpumaths4096 => GoInt.wrap (getConstantsSize4096 C kernel)
  end.

(** The local [slotSize] of [maxSlots]: input bytes plus output bytes
    of one item. *)
Definition slotSize (g : gpumathsEnv) (op : enum_kernel) : Z :=
  GoInt.add (getInputSize g op) (getOutputSize g op).

(** The three methods [maxSlots] have one body; the receiver only
    selects the size queries. *)
Definition maxSlots (g : gpumathsEnv) (memSize : Z) (op : enum_kernel)
  : outcome Z :=
  let constantsSize := getConstantsSize g op in
  let memForSlots := GoInt.sub memSize constantsSize in
  if memForSlots <? 0 then Ret 0
  else GoInt.div memForSlots (slotSize g op).

Definition streamSizeContaining (g : gpumathsEnv) (numItems kernel : Z) : Z :=
  let k := enum_kernel_of_int C kernel in
  GoInt.add
    (GoInt.add (GoInt.mul (getInputSize g k) numItems)
               (GoInt.mul (getOutputSize g k) numItems))
    (getConstantsSize g k).

End Sizing.

(** A native library instance used for concrete evaluation: the kernel
    enumeration is an index, every environment charges four numbers of
    input, two of output and three of constants per kernel. *)
Definition sample_export : powm_odd_export Z := {|
  getInputSize2048 := fun _ => 4 * 256;
  getInputSize3200 := fun _ => 4 * 400;
  getInputSize4096 := fun _ => 4 * 512;
  getOutputSize2048 := fun _ => 2 * 256;
  getOutputSize3200 := fun _ => 2 * 400;
  getOutputSize4096 := fun _ => 2 * 512;
  getConstantsSize2048 := fun _ => 3 * 256;
  getConstantsSize3200 := fun _ => 3 * 400;
  getConstantsSize4096 := fun _ => 3 * 512;
  enum_kernel_of_int := fun k => k mod 2 ^ 32
|}.

(** ** Errors *)

(** Go's [error]: [None] is [nil]. *)
Definition error : Type := option string.

Definition errors_New (text : string) : error := Some text.

(** [goError] copies a C string into a Go error ([nil] for the null
    string); freeing the C string is not modelled. *)
Definition goError (cString : option string) : error :=
  match cString with
  | Some errorStringGo => errors_New errorStringGo
  | None => None
  end.

(** ** The native stream interface *)

(** The accelerator library behind [C.createStream] and
    [C.destroyStream], as a state: the contexts it holds, what its next
    calls will answer, and a log of the calls made. *)
Module Native.

(** The non-null values of the stream pointer. *)
Definition stream : Type := positive.

Record streamCreateInfo : Type := { capacity : Z }.

Record createStreamResult : Type := {
  result : option stream;
  error : option string
}.

Inductive call : Type :=
| CreateStream (info : streamCreateInfo) (r : createStreamResult)
| DestroyStream (s : stream) (err : option string).

(** What one call of [createStream] does: whether it leaves a context
    allocated, and the error string it reports, if any. *)
Record creation : Type := {
  allocates : bool;
  reports : option string
}.

Record world : Type := {
  fresh : stream;
  live : gset stream;
  script : list creation;
  refuses : stream -> option string;
  calls : list call
}.

Definition next_creation (w : world) : creation :=
  match script w with
  | c :: _ => c
  | [] => {| allocates := true; reports := None |}
  end.

Definition createStream (info : streamCreateInfo) (w : world)
  : createStreamResult * world :=
  let c := next_creation w in
  let r := {| result := if allocates c then Some (fresh w) else None;
              error := reports c |} in
  (r, {| fresh := if allocates c then Pos.succ (fresh w) else fresh w;
         live := if allocates c then {[fresh w]} ∪ live w else live w;
         script := tail (script w);
         refuses := refuses w;
         calls := calls w ++ [CreateStream info r] |}).

Definition destroyStream (s : stream) (w : world) : option string * world :=
  let err := refuses w s in
  (err, {| fresh := fresh w;
           live := match err with None => live w ∖ {[s]} | Some _ => live w end;
           script := script w;
           refuses := refuses w;
           calls := calls w ++ [DestroyStream s err] |}).

(** The contexts a log creates and the ones it asks to destroy, in
    call order. *)
Definition created (log : list call) : list stream :=
  flat_map (fun c => match c with
                     | CreateStream _ r => option_list (result r)
                     | DestroyStream _ _ => []
                     end) log.

Definition destroyed (log : list call) : list stream :=
  flat_map (fun c => match c with
                     | CreateStream _ _ => []
                     | DestroyStream s _ => [s]
                     end) log.

(** The error strings the [createStream] calls of a log reported. *)
Definition failures (log : list call) : list string :=
  flat_map (fun c => match c with
                     | CreateStream _ r => option_list (error r)
                     | DestroyStream _ _ => []
                     end) log.

(** The allocator never hands out a pointer that is still live. *)
Definition consistent (w : world) : Prop :=
  forall s, s ∈ live w -> (s < fresh w)%positive.

End Native.

(** ** Streams *)

Record Stream : Type := {
  s : Native.stream;
  memSize : Z
}.

(** The clean-up loop of [createStreams]: every stream of the slice is
    passed to [C.destroyStream], whose answer is dropped. *)
Definition destroy_each (streams : list Stream) (w : Native.world)
  : Native.world :=
  fold_left (fun w1 st => snd (Native.destroyStream (s st) w1)) streams w.

(** The calls [destroy_each] adds for a slice of streams. *)
Definition destroy_calls (refuses : Native.stream -> option string)
    (hs : list Native.stream) : list Native.call :=
  map (fun h => Native.DestroyStream h (refuses h)) hs.

(** The body of the loop [for i := 0; i < numStreams; i++] of
    [createStreams], run [count] more times; a [nil] slice is [None]. *)
Fixpoint createStreams_loop (count : nat) (streamCreateInfo : Native.streamCreateInfo)
    (capacity : Z) (streams : list Stream) (w : Native.world)
  : (option (list Stream) * error) * Native.world :=
  match count with
  | O => ((Some streams, None), w)
  | S count' =>
    let '(createStreamResult, w1) := Native.createStream streamCreateInfo w in
    let streams1 :=
      match Native.result createStreamResult with
      | Some p => streams ++ [{| s := p; memSize := capacity |}]
      | None => streams
      end in
    match Native.error createStreamResult with
    | Some e => ((None, goError (Some e)), destroy_each streams1 w1)
    | None => createStreams_loop count' streamCreateInfo capacity streams1 w1
    end
  end.

(** [make([]Stream, 0, numStreams)] panics, before any native call, on
    a negative capacity and on one above [max_cap], the largest
    capacity the run time allocates for a slice of [Stream] (its
    allocation limit divided by the size of [Stream], whose declaration
    is not among the sources; less where memory is short).
    [C.size_t(capacity)] is the capacity as an unsigned 64-bit value. *)
Definition createStreams (max_cap : Z) (numStreams capacity : Z)
    (w : Native.world)
  : outcome ((option (list Stream) * error) * Native.world) :=
  let streamCreateInfo := {| Native.capacity := capacity mod 2 ^ 64 |} in
  if (numStreams <? 0) || (max_cap <? numStreams)
  then Panic "runtime error: makeslice: cap out of range"
  else Ret (createStreams_loop (Z.to_nat numStreams) streamCreateInfo capacity [] w).

(** The loop [for i := 0; i < len(streams); i++] over [streams[i]]. *)
Fixpoint destroyStreams (streams : list Stream) (w : Native.world)
  : error * Native.world :=
  match streams with
  | [] => (None, w)
  | st :: rest =>
    let '(err, w1) := Native.destroyStream (s st) w in
    match err with
    | Some e => (goError (Some e), w1)
    | None => destroyStreams rest w1
    end
  end.

(** ** Serialization *)

(** [count] iterations of a loop body from index [i] upwards; a panic in
    the body ends the loop. *)
Fixpoint for_loop {St : Type} (count : nat) (i : Z)
    (body : Z -> St -> outcome St) (st : St) : outcome St :=
  match count with
  | O => Ret st
  | S count' => st' ← body i st; for_loop count' (i + 1) body st'
  end.

(** [for i := lo; i < hi; i++ { body }]. *)
Definition for_range {St : Type} (lo hi : Z)
    (body : Z -> St -> outcome St) (st : St) : outcome St :=
  for_loop (Z.to_nat (hi - lo)) lo body st.

(** The decimal text of an integer. *)
Definition itoa (z : Z) : string :=
  DecimalString.NilZero.string_of_int (Z.to_int z).

(** The panic of an index [i] outside a slice of length [n]. *)
Definition index_panic (i n : Z) : string :=
  "runtime error: index out of range [" ++ itoa i ++ "] with length " ++ itoa n.

Section PutInt.
Context {Mem : Type} (store : Mem -> Z -> byte -> outcome Mem).

(** [putInt] over a destination with the assignment [dst[i] = b]
    given by [store]. *)
Definition putInt_on (dst : Mem) (src : list byte) (n : Z) : outcome Mem :=
  let n2 := len src in
  dst1 ← for_range 0 n2
    (fun i dst0 =>
       match src !! Z.to_nat i with
       | Some b => store dst0 (n2 - i - 1) b
       | None => Panic (index_panic i n2)
       end) dst;
  for_range n2 n (fun i dst0 => store dst0 i x00) dst1.

(** Carrying out a list of assignments, in order. *)
Fixpoint replay_on (stores : list (Z * byte)) (dst : Mem) : outcome Mem :=
  match stores with
  | [] => Ret dst
  | (i, b) :: rest => dst1 ← store dst i b; replay_on rest dst1
  end.

End PutInt.

(** [dst[i] = b] on a byte slice: a panic outside [0 <= i < len(dst)]. *)
Definition store_slice (dst : list byte) (i : Z) (b : byte)
  : outcome (list byte) :=
  if (0 <=? i) && (i <? len dst) then Ret (<[Z.to_nat i := b]> dst)
  else Panic (index_panic i (len dst)).

Definition putInt (dst src : list byte) (n : Z) : outcome (list byte) :=
  putInt_on store_slice dst src n.

(** The assignments [putInt] makes, in order, on a destination without
    bounds. *)
Definition store_log (log : list (Z * byte)) (i : Z) (b : byte)
  : outcome (list (Z * byte)) :=
  Ret (log ++ [(i, b)]).

Definition putInt_stores (src : list byte) (n : Z) : outcome (list (Z * byte)) :=
  putInt_on store_log [] src n.

(** Carrying out a list of assignments on a byte slice. *)
Definition replay (stores : list (Z * byte)) (dst : list byte)
  : outcome (list byte) :=
  replay_on store_slice stores dst.

(** The assignments of [putInt], listed: index [len(src) - i - 1] gets
    [src[i]] for [i] from 0 up to [len(src)], then index [i] gets zero
    for [i] from [len(src)] up to [n]. *)
Definition putInt_assignments (src : list byte) (n : Z) : list (Z * byte) :=
  ((fun i => (len src - i - 1, default x00 (src !! Z.to_nat i)))
     <$> seqZ 0 (len src))
  ++ ((fun i => (i, x00)) <$> seqZ (len src) (n - len src)).

(** The value [v] left-padded with zero bytes to width [n]. *)
Definition left_pad (n : Z) (v : list byte) : list byte :=
  replicate (Z.to_nat (n - len v)) x00 ++ v.

(** The number a byte string denotes, most significant byte first and
    least significant byte first. *)
Definition byte_value (b : byte) : Z := Z.of_N (Byte.to_N b).

Definition be_value (l : list byte) : Z :=
  fold_left (fun acc b => 256 * acc + byte_value b) l 0.

Definition le_value (l : list byte) : Z :=
  fold_right (fun b acc => byte_value b + 256 * acc) 0 l.

(** ** The stubbed build *)

Module Stub.

Inductive Stream : Type := mkStream.
Inductive StreamPool : Type := mkStreamPool.

Definition unsupported : string :=
  "gpumaths stubbed build doesn't support CUDA stream pool".

Definition GetMaxSlotsExp (s : option Stream) : Z := 0.
Definition GetMaxSlotsElGamal (s : option Stream) : Z := 0.

Definition NewStreamPool (numStreams memSize : Z)
  : option StreamPool * error :=
  (None, errors_New unsupported).

Definition TakeStream (sm : option StreamPool) : Stream := mkStream.
Definition ReturnStream (sm : option StreamPool) (s : Stream) : unit := tt.
Definition Destroy (sm : option StreamPool) : error := errors_New unsupported.

Definition MaxSlots (memSize op : Z) : Z := 0.
Definition streamSizeContaining (numItems kernel : Z) : Z := 0.

(** An error whose text says the build does not support the request. *)
Definition is_unsupported (e : error) : bool :=
  match e with
  | Some text =>
    match String.index 0 "doesn't support" text with
    | Some _ => true
    | None => false
    end
  | None => false
  end.

(** The pool and stream operations of the stubbed build, with their
    arguments. *)
Inductive operation : Type :=
| OpNewStreamPool (numStreams memSize : Z)
| OpTakeStream (sm : option StreamPool)
| OpReturnStream (sm : option StreamPool) (s : Stream)
| OpDestroy (sm : option StreamPool).

(** The error an operation hands back; [None] for an operation whose
    signature has no error result. *)
Definition reported (op : operation) : option error :=
  match op with
  | OpNewStreamPool numStreams memSize =>
    Some (snd (NewStreamPool numStreams memSize))
  | OpTakeStream _ => None
  | OpReturnStream _ _ => None
  | OpDestroy sm => Some (Destroy sm)
  end.

Definition fails_unsupported (op : operation) : bool :=
  match reported op with
  | Some e => is_unsupported e
  | None => false
  end.

End Stub.

(** ** The stream pool *)

#[global] Instance Stream_eq_dec : EqDecision Stream.
Proof. solve_decision. Defined.

#[global] Instance Stream_countable : Countable Stream :=
  inj_countable' (fun st => (s st, memSize st))
                 (fun p => {| s := p.1; memSize := p.2 |})
                 (fun st => match st with Build_Stream _ _ => eq_refl end).

(** Modelled from the spec: the stream pool of the accelerated build
    (its [NewStreamPool], [TakeStream], [ReturnStream] and [Destroy] are
    not among the sources).  A pool is a fixed set of streams, split
    into the idle ones and the ones checked out.  [acquire] grants a
    stream only when it is idle and the pool is open, and marks it
    checked out; [release] returns a checked-out stream to the idle
    set; [close] ends checkouts.  Pool operations are atomic, the idle
    and checked-out sets being guarded by one mutual-exclusion
    primitive, so a run of the pool is a sequence of such steps. *)
Module Pool.

Record StreamPool : Type := {
  members : gset Stream;
  idle : gset Stream;
  checked_out : gset Stream;
  closed : bool
}.

(** The pool over the streams [createStreams] returned. *)
Definition of_streams (streams : list Stream) : StreamPool :=
  {| members := list_to_set streams;
     idle := list_to_set streams;
     checked_out := ∅;
     closed := false |}.

(** [open(streamCount, memoryBudgetPerStream)]: a pool, or the resource
    error of a failed allocation. *)
Definition open (max_cap : Z) (streamCount memoryBudgetPerStream : Z)
    (w : Native.world)
  : outcome ((option StreamPool * error) * Native.world) :=
  r ← createStreams max_cap streamCount memoryBudgetPerStream w;
  match r with
  | ((Some streams, None), w1) => Ret ((Some (of_streams streams), None), w1)
  | ((_, err), w1) => Ret ((None, err), w1)
  end.

Inductive action : Type :=
| Acquire (st : Stream)
| Release (st : Stream)
| Close.

(** One step of the pool; [None] when the step cannot take place in
    this state (the acquirer stays blocked or is refused, the
    releaser does not hold the stream). *)
Definition step (a : action) (p : StreamPool) : option StreamPool :=
  match a with
  | Acquire st =>
    if closed p then None
    else if decide (st ∈ idle p) then
      Some {| members := members p;
              idle := idle p ∖ {[st]};
              checked_out := checked_out p ∪ {[st]};
              closed := closed p |}
    else None
  | Release st =>
    if decide (st ∈ checked_out p) then
      Some {| members := members p;
              idle := idle p ∪ {[st]};
              checked_out := checked_out p ∖ {[st]};
              closed := closed p |}
    else None
  | Close =>
    Some {| members := members p;
            idle := idle p;
            checked_out := checked_out p;
            closed := true |}
  end.

Fixpoint run (acts : list action) (p : StreamPool) : option StreamPool :=
  match acts with
  | [] => Some p
  | a :: rest => p1 ← step a p; run rest p1
  end.

(** The states a pool reaches from [p0]. *)
Definition reachable (p0 p : StreamPool) : Prop :=
  exists acts, run acts p0 = Some p.

End Pool.

(** What every step of a pool keeps: the membership, and that idle and
    checked-out streams are members. *)
Definition pool_inv (p0 p : Pool.StreamPool) : Prop :=
  Pool.members p = Pool.members p0
  /\ Pool.checked_out p ⊆ Pool.members p
  /\ Pool.idle p ⊆ Pool.members p.

(** ** The tests *)

(** The comparison loop at the end of [TestElGamal], over payload
    buffers as lists and the comparison [Cmp] of the integer library;
    [Get] outside a buffer panics.  Each [t.Errorf] is one reported
    mismatch. *)
Section TestElGamal.
Context {Int : Type} (Cmp : Int -> Int -> Z).

Inductive mismatch : Type :=
| KeysPayloadMisMatch (i : Z) (KPGPU KPCPU : Int)
| CypherPayloadMismatch (i : Z) (CPGPU CPCPU : Int).

Definition Get (buffer : list Int) (i : Z) : outcome Int :=
  match buffer !! Z.to_nat i with
  | Some x => Ret x
  | None => Panic (index_panic i (len buffer))
  end.

Definition compare_payloads (batchSize : Z)
    (KeysPayloadGPU KeysPayloadCPU CypherPayloadGPU CypherPayloadCPU : list Int)
  : outcome (list mismatch) :=
  for_range 0 batchSize
    (fun i errors =>
       KPGPU ← Get KeysPayloadGPU i;
       KPCPU ← Get KeysPayloadCPU i;
       let errors1 :=
         if negb (Cmp KPGPU KPGPU =? 0)
         then errors ++ [KeysPayloadMisMatch i KPGPU KPCPU]
         else errors in
       CPGPU ← Get CypherPayloadGPU i;
       CPCPU ← Get CypherPayloadCPU i;
       Ret (if negb (Cmp CPGPU CPGPU =? 0)
            then errors1 ++ [CypherPayloadMismatch i CPGPU CPCPU]
            else errors1))
    [].

End TestElGamal.

(** The comparison of integers, as [Cmp] returns it. *)
Definition Z_Cmp (x y : Z) : Z :=
  match x ?= y with
  | Lt => -1
  | Eq => 0
  | Gt => 1
  end.

(** ** Library states used for concrete evaluation *)

(** A device holding no context, with the coming [createStream] answers
    [script] and the [destroyStream] answers [refuses]. *)
Definition device (script : list Native.creation)
    (refuses : Native.stream -> option string) : Native.world :=
  {| Native.fresh := 1%positive;
     Native.live := ∅;
     Native.script := script;
     Native.refuses := refuses;
     Native.calls := [] |}.

Definition never_refuses : Native.stream -> option string := fun _ => None.

(** The slice limit of a two-word [Stream] under an allocation limit of
    [2 ^ 48] bytes. *)
Definition sample_max_cap : Z := 2 ^ 48 / 16.

Definition refuses_only (h : Native.stream) (text : string)
  : Native.stream -> option string :=
  fun h' => if Pos.eqb h' h then Some text else None.

Definition created_ok : Native.creation :=
  {| Native.allocates := true; Native.reports := None |}.

Definition creation_fails (text : string) : Native.creation :=
  {| Native.allocates := false; Native.reports := Some text |}.

Definition creates_nothing : Native.creation :=
  {| Native.allocates := false; Native.reports := None |}.

(** The calls a run added to the log of [w]. *)
Definition calls_since (w w' : Native.world) : list Native.call :=
  drop (length (Native.calls w)) (Native.calls w').

(** * Properties *)

(** ** Arithmetic of [int] *)

Ltac int_consts :=
  cbv [GoInt.in_range GoInt.min_int GoInt.max_int GoInt.modulus GoInt.bits] in *;
  change (2 ^ (64 - 1)) with 9223372036854775808 in *;
  change (2 ^ 64) with 18446744073709551616 in *.

Lemma wrap_in_range z : GoInt.in_range (GoInt.wrap z).
Proof.
  unfold GoInt.wrap.
  pose proof (Z.mod_pos_bound (z - GoInt.min_int) GoInt.modulus eq_refl).
  int_consts. lia.
Qed.

Lemma wrap_small z : GoInt.in_range z -> GoInt.wrap z = z.
Proof.
  intros Hz. unfold GoInt.wrap.
  rewrite Z.mod_small; int_consts; lia.
Qed.

Lemma wrap_decomp z : exists k, GoInt.wrap z = z + k * GoInt.modulus.
Proof.
  exists (- ((z - GoInt.min_int) / GoInt.modulus)).
  unfold GoInt.wrap.
  rewrite Z.mod_eq by (int_consts; lia). lia.
Qed.

Lemma wrap_shift z k : GoInt.wrap (z + k * GoInt.modulus) = GoInt.wrap z.
Proof.
  unfold GoInt.wrap.
  replace (z + k * GoInt.modulus - GoInt.min_int)
    with (z - GoInt.min_int + k * GoInt.modulus) by lia.
  now rewrite Z_mod_plus_full.
Qed.

Lemma wrap_congr a b k : a = b + k * GoInt.modulus -> GoInt.wrap a = GoInt.wrap b.
Proof. intros ->. apply wrap_shift. Qed.

Lemma wrap_add_wrap_l a b : GoInt.wrap (GoInt.wrap a + b) = GoInt.wrap (a + b).
Proof.
  destruct (wrap_decomp a) as [k ->].
  apply (wrap_congr _ _ k). lia.
Qed.

Lemma wrap_add_wrap_r a b : GoInt.wrap (a + GoInt.wrap b) = GoInt.wrap (a + b).
Proof. rewrite (Z.add_comm a), wrap_add_wrap_l. f_equal. lia. Qed.

Lemma wrap_sub_wrap_l a b : GoInt.wrap (GoInt.wrap a - b) = GoInt.wrap (a - b).
Proof.
  destruct (wrap_decomp a) as [k ->].
  apply (wrap_congr _ _ k). lia.
Qed.

Lemma wrap_mul_wrap_l a b : GoInt.wrap (GoInt.wrap a * b) = GoInt.wrap (a * b).
Proof.
  destruct (wrap_decomp a) as [k ->].
  apply (wrap_congr _ _ (k * b)). lia.
Qed.

(** ** Environments *)

(** C9.  For each of the three environments the byte length is the bit
    length divided by 8, and the division is exact: eight times the byte
    length is the bit length.  Both are functions of the environment
    alone. *)
Theorem byte_length_is_bit_length_over_8 (g : gpumathsEnv) :
  getByteLen g = getBitLen g ÷ 8 /\ 8 * getByteLen g = getBitLen g.
Proof. destruct g; split; reflexivity. Qed.

Lemma getBitLen_cases g :
  getBitLen g = 2048 \/ getBitLen g = 3200 \/ getBitLen g = 4096.
Proof. destruct g; simpl; auto. Qed.

(** C5.  When the prime's bit length is at most 4096, [chooseEnv]
    returns an environment that is wide enough and no wider than any
    other environment that is wide enough; when the bit length exceeds
    4096 it panics, with the message naming the prime. *)
Theorem chooseEnv_smallest_fit (g : Group) :
  (BitLen (GetP g) <= 4096 ->
   exists env, chooseEnv g = Ret env
     /\ BitLen (GetP g) <= getBitLen env
     /\ forall env', BitLen (GetP g) <= getBitLen env' ->
                     getBitLen env <= getBitLen env')
  /\ (4096 < BitLen (GetP g) ->
      chooseEnv g =
      Panic ("Prime " ++ Text16 (GetP g)
             ++ " was too big for any available gpumaths environment")).
Proof.
  unfold chooseEnv. simpl getBitLen.
  destruct (Z.leb_spec (BitLen (GetP g)) 2048) as [H1 | H1];
    [| destruct (Z.leb_spec (BitLen (GetP g)) 3200) as [H2 | H2];
       [| destruct (Z.leb_spec (BitLen (GetP g)) 4096) as [H3 | H3]]].
  - split; [intros _ | lia].
    exists gpumaths2048. repeat split; [simpl; lia |].
    intros env' _. destruct (getBitLen_cases env') as [-> | [-> | ->]]; simpl; lia.
  - split; [intros _ | lia].
    exists gpumaths3200. repeat split; [simpl; lia |].
    intros env' Hfit. destruct env'; simpl in *; lia.
  - split; [intros _ | lia].
    exists gpumaths4096. repeat split; [simpl; lia |].
    intros env' Hfit. destruct env'; simpl in *; lia.
  - split; [lia | reflexivity].
Qed.

(** A 2048-bit prime gets the 2048-bit environment, a 2049-bit one the
    3200-bit environment, and a 4097-bit one a panic. *)
Lemma chooseEnv_examples :
  chooseEnv {| GetP := 2 ^ 2048 - 1 |} = Ret gpumaths2048
  /\ chooseEnv {| GetP := 2 ^ 2048 |} = Ret gpumaths3200
  /\ chooseEnv {| GetP := 2 ^ 3200 |} = Ret gpumaths4096
  /\ returns (chooseEnv {| GetP := 2 ^ 4096 - 1 |})
  /\ ~ returns (chooseEnv {| GetP := 2 ^ 4096 |}).
Proof.
  split; [vm_compute; reflexivity |]. split; [vm_compute; reflexivity |].
  split; [vm_compute; reflexivity |]. split; [vm_compute; exact I |].
  vm_compute. tauto.
Qed.

(** ** Sizing *)

Section SizingFacts.
Context {enum_kernel : Type} (C : powm_odd_export enum_kernel).

Lemma getInputSize_in_range g op : GoInt.in_range (getInputSize C g op).
Proof. destruct g; apply wrap_in_range. Qed.

Lemma getConstantsSize_in_range g op : GoInt.in_range (getConstantsSize C g op).
Proof. destruct g; apply wrap_in_range. Qed.

(** Below the constants region [maxSlots] returns 0 without dividing,
    whatever the slot size is. *)
Lemma maxSlots_below_constants g B op :
  GoInt.min_int <= B - getConstantsSize C g op ->
  B < getConstantsSize C g op ->
  maxSlots C g B op = Ret 0.
Proof.
  intros Hlo Hlt. unfold maxSlots, GoInt.sub.
  rewrite wrap_small by (int_consts; lia).
  destruct (Z.ltb_spec (B - getConstantsSize C g op) 0); [reflexivity | lia].
Qed.

(** With [memSize - constantsSize] wrapping to [m >= 0], the result is
    the truncated quotient of [m] by the slot size. *)
Lemma maxSlots_quot g B op m :
  GoInt.wrap (B - getConstantsSize C g op) = m ->
  0 <= m -> 0 < slotSize C g op ->
  maxSlots C g B op = Ret (m ÷ slotSize C g op).
Proof.
  intros Hm Hpos Hslot. unfold maxSlots, GoInt.sub, GoInt.div. rewrite Hm.
  destruct (Z.ltb_spec m 0); [lia |].
  destruct (Z.eqb_spec (slotSize C g op) 0); [lia |].
  f_equal. apply wrap_small.
  pose proof (wrap_in_range (B - getConstantsSize C g op)) as Hr.
  rewrite Hm in Hr.
  pose proof (Z.quot_pos m (slotSize C g op) Hpos Hslot).
  assert (m ÷ slotSize C g op <= m) by (apply Z.quot_le_upper_bound; nia).
  int_consts. lia.
Qed.

(** The memory left for slots after [streamSizeContaining]: the slot
    size times the item count, wrapped. *)
Lemma streamSizeContaining_minus_constants g n kernel :
  GoInt.wrap (streamSizeContaining C g n kernel
              - getConstantsSize C g (enum_kernel_of_int C kernel))
  = GoInt.wrap (slotSize C g (enum_kernel_of_int C kernel) * n).
Proof.
  unfold streamSizeContaining, slotSize, GoInt.add, GoInt.mul.
  set (k := enum_kernel_of_int C kernel).
  set (i := getInputSize C g k). set (o := getOutputSize C g k).
  set (c := getConstantsSize C g k).
  rewrite wrap_sub_wrap_l, wrap_mul_wrap_l.
  replace (GoInt.wrap (GoInt.wrap (i * n) + GoInt.wrap (o * n)) + c - c)
    with (GoInt.wrap (GoInt.wrap (i * n) + GoInt.wrap (o * n))) by lia.
  rewrite (wrap_small (GoInt.wrap _)) by apply wrap_in_range.
  rewrite wrap_add_wrap_l, wrap_add_wrap_r. f_equal. lia.
Qed.

End SizingFacts.

(** C6 (amended).  When [B - constantsSize] is representable as an
    [int], [maxSlots] returns [max 0 (floor ((B - constantsSize) /
    slotSize))] for a positive slot size, and it returns 0 without
    panicking when [B] is below the constants size. *)
Theorem maxSlots_formula {enum_kernel : Type} (C : powm_odd_export enum_kernel)
    (g : gpumathsEnv) (B : Z) (op : enum_kernel) :
  GoInt.min_int <= B - getConstantsSize C g op <= GoInt.max_int ->
  (0 < slotSize C g op ->
   maxSlots C g B op
   = Ret (Z.max 0 ((B - getConstantsSize C g op) / slotSize C g op)))
  /\ (B < getConstantsSize C g op -> maxSlots C g B op = Ret 0).
Proof.
  intros [Hlo Hhi]. split.
  - intros Hslot.
    destruct (Z.lt_ge_cases (B - getConstantsSize C g op) 0) as [Hneg | Hpos].
    + rewrite maxSlots_below_constants by lia. f_equal.
      assert ((B - getConstantsSize C g op) / slotSize C g op < 0)
        by (apply Z.div_lt_upper_bound; lia).
      lia.
    + rewrite (maxSlots_quot C g B op (B - getConstantsSize C g op));
        [| apply wrap_small; int_consts; lia | lia | lia].
      rewrite Z.quot_div_nonneg by lia.
      f_equal. pose proof (Z.div_pos _ _ Hpos Hslot). lia.
  - intros Hlt. apply maxSlots_below_constants; lia.
Qed.

Lemma maxSlots_formula_witness :
  GoInt.min_int <= 65536 - getConstantsSize sample_export gpumaths4096 1
    <= GoInt.max_int
  /\ 0 < slotSize sample_export gpumaths4096 1
  /\ maxSlots sample_export gpumaths4096 65536 1
     = Ret (Z.max 0 ((65536 - getConstantsSize sample_export gpumaths4096 1)
                     / slotSize sample_export gpumaths4096 1)).
Proof.
  assert (Hr : GoInt.min_int
               <= 65536 - getConstantsSize sample_export gpumaths4096 1
               <= GoInt.max_int)
    by (vm_compute; split; discriminate).
  assert (Hs : 0 < slotSize sample_export gpumaths4096 1) by reflexivity.
  split; [exact Hr |]. split; [exact Hs |].
  exact (proj1 (maxSlots_formula sample_export gpumaths4096 65536 1 Hr) Hs).
Defined.

(** A budget so far below zero that subtracting the constants size
    wraps around: the budget is below the constants size, yet the
    result is not 0. *)
Lemma maxSlots_wraps_on_low_budget :
  GoInt.in_range GoInt.min_int
  /\ 0 < slotSize sample_export gpumaths4096 1
  /\ GoInt.min_int < getConstantsSize sample_export gpumaths4096 1
  /\ maxSlots sample_export gpumaths4096 GoInt.min_int 1
     = Ret 3002399751580330
  /\ Z.max 0 ((GoInt.min_int - getConstantsSize sample_export gpumaths4096 1)
              / slotSize sample_export gpumaths4096 1) = 0.
Proof. vm_compute. repeat split; discriminate. Qed.

(** C1 (amended).  For a nonnegative item count [n] and a positive slot
    size whose product fits an [int], [maxSlots] applied to
    [streamSizeContaining n] returns [n]. *)
Theorem sizing_round_trip {enum_kernel : Type} (C : powm_odd_export enum_kernel)
    (g : gpumathsEnv) (n kernel : Z) :
  0 <= n ->
  0 < slotSize C g (enum_kernel_of_int C kernel) ->
  slotSize C g (enum_kernel_of_int C kernel) * n <= GoInt.max_int ->
  maxSlots C g (streamSizeContaining C g n kernel) (enum_kernel_of_int C kernel)
  = Ret n.
Proof.
  intros Hn Hslot Hfit.
  rewrite (maxSlots_quot C g _ _ (slotSize C g (enum_kernel_of_int C kernel) * n)).
  - f_equal. rewrite Z.mul_comm. apply Z.quot_mul. lia.
  - rewrite streamSizeContaining_minus_constants.
    apply wrap_small. int_consts. nia.
  - nia.
  - exact Hslot.
Qed.

Lemma sizing_round_trip_witness :
  maxSlots sample_export gpumaths4096
    (streamSizeContaining sample_export gpumaths4096 32768 1)
    (enum_kernel_of_int sample_export 1)
  = Ret 32768.
Proof.
  apply (sizing_round_trip sample_export gpumaths4096 32768 1).
  - lia.
  - reflexivity.
  - vm_compute. discriminate.
Defined.

(** An item count whose memory size does not fit an [int]: the size
    wraps around and the round trip returns 0. *)
Lemma sizing_round_trip_overflows :
  0 <= 2 ^ 62
  /\ GoInt.in_range (2 ^ 62)
  /\ 0 < slotSize sample_export gpumaths4096 (enum_kernel_of_int sample_export 1)
  /\ maxSlots sample_export gpumaths4096
       (streamSizeContaining sample_export gpumaths4096 (2 ^ 62) 1)
       (enum_kernel_of_int sample_export 1)
     = Ret 0
  /\ 2 ^ 62 <> 0.
Proof. vm_compute. repeat split; discriminate. Qed.

(** The bound of C1 is the exact one: past it the round trip fails for
    every library and environment. *)
Lemma sizing_round_trip_fails_past_max_int {enum_kernel : Type}
    (C : powm_odd_export enum_kernel) (g : gpumathsEnv) (n kernel : Z) :
  0 <= n ->
  0 < slotSize C g (enum_kernel_of_int C kernel) ->
  GoInt.max_int < slotSize C g (enum_kernel_of_int C kernel) * n ->
  maxSlots C g (streamSizeContaining C g n kernel) (enum_kernel_of_int C kernel)
  <> Ret n.
Proof.
  intros Hn Hslot Hover.
  set (sl := slotSize C g (enum_kernel_of_int C kernel)) in *.
  pose proof (streamSizeContaining_minus_constants C g n kernel) as Hm.
  fold sl in Hm.
  pose proof (wrap_in_range (sl * n)) as Hr.
  destruct (Z.lt_ge_cases (GoInt.wrap (sl * n)) 0) as [Hneg | Hpos].
  - unfold maxSlots, GoInt.sub. rewrite Hm.
    destruct (Z.ltb_spec (GoInt.wrap (sl * n)) 0); [| lia].
    intros [= <-]. int_consts. lia.
  - rewrite (maxSlots_quot C g _ _ (GoInt.wrap (sl * n)) Hm Hpos Hslot).
    intros [= Hq]. fold sl in Hq.
    pose proof (Z.mul_quot_le (GoInt.wrap (sl * n)) sl Hpos ltac:(lia)) as Hle.
    rewrite Hq in Hle. int_consts. lia.
Qed.

(** ** The stubbed build *)

(** C7 (amended).  In the stubbed build the operations that have an
    error result, [NewStreamPool] and [Destroy], return for every input
    an error whose text says the build does not support the stream pool
    ([NewStreamPool] with a [nil] pool), and they are the only
    operations that fail so: [TakeStream] returns an empty stream and
    [ReturnStream] does nothing.  [MaxSlots], [streamSizeContaining],
    [GetMaxSlotsExp] and [GetMaxSlotsElGamal] return 0 for every
    input. *)
Theorem stub_fails_and_sizes_nothing :
  (forall numStreams memSize,
      Stub.NewStreamPool numStreams memSize = (None, Some Stub.unsupported))
  /\ (forall sm, Stub.Destroy sm = Some Stub.unsupported)
  /\ Stub.is_unsupported (Some Stub.unsupported) = true
  /\ (forall op, Stub.fails_unsupported op = true
                 <-> (exists numStreams memSize,
                         op = Stub.OpNewStreamPool numStreams memSize)
                     \/ (exists sm, op = Stub.OpDestroy sm))
  /\ (forall sm, Stub.TakeStream sm = Stub.mkStream)
  /\ (forall sm st, Stub.ReturnStream sm st = tt)
  /\ (forall memSize op, Stub.MaxSlots memSize op = 0)
  /\ (forall numItems kernel, Stub.streamSizeContaining numItems kernel = 0)
  /\ (forall st, Stub.GetMaxSlotsExp st = 0)
  /\ (forall st, Stub.GetMaxSlotsElGamal st = 0).
Proof.
  assert (Hmsg : Stub.is_unsupported (Some Stub.unsupported) = true)
    by (vm_compute; reflexivity).
  split; [intros numStreams memSize; reflexivity |].
  split; [intros sm; reflexivity |].
  split; [exact Hmsg |].
  split.
  - intros [numStreams memSize | sm | sm st | sm]; unfold Stub.fails_unsupported;
      simpl Stub.reported; cbv iota.
    + split; [intros _; left; eauto | intros _; exact Hmsg].
    + split; [discriminate | intros [(? & ? & [=]) | (? & [=])]].
    + split; [discriminate | intros [(? & ? & [=]) | (? & [=])]].
    + split; [intros _; right; eauto | intros _; exact Hmsg].
  - repeat split.
Qed.

(** [TakeStream] hands back a stream and no error: a pool operation
    that does not fail. *)
Lemma stub_TakeStream_does_not_fail :
  Stub.TakeStream None = Stub.mkStream
  /\ Stub.reported (Stub.OpTakeStream None) = None
  /\ Stub.fails_unsupported (Stub.OpTakeStream None) = false.
Proof. repeat split. Qed.

(** ** Streams over the native library *)

Lemma created_app l1 l2 :
  Native.created (l1 ++ l2) = Native.created l1 ++ Native.created l2.
Proof. unfold Native.created. induction l1; simpl; [| rewrite IHl1, app_assoc]; done. Qed.

Lemma destroyed_app l1 l2 :
  Native.destroyed (l1 ++ l2) = Native.destroyed l1 ++ Native.destroyed l2.
Proof. unfold Native.destroyed. induction l1; simpl; [| rewrite IHl1, app_assoc]; done. Qed.

Lemma failures_app l1 l2 :
  Native.failures (l1 ++ l2) = Native.failures l1 ++ Native.failures l2.
Proof. unfold Native.failures. induction l1; simpl; [| rewrite IHl1, app_assoc]; done. Qed.

Lemma destroy_calls_destroyed refuses hs :
  Native.destroyed (destroy_calls refuses hs) = hs.
Proof. induction hs; simpl; [| rewrite IHhs]; done. Qed.

Lemma destroy_calls_created refuses hs :
  Native.created (destroy_calls refuses hs) = [].
Proof. induction hs; simpl; done. Qed.

Lemma destroy_calls_failures refuses hs :
  Native.failures (destroy_calls refuses hs) = [].
Proof. induction hs; simpl; done. Qed.

Lemma destroy_each_refuses streams w :
  Native.refuses (destroy_each streams w) = Native.refuses w.
Proof.
  revert w. induction streams as [| st streams IH]; intros w; [done |].
  change (destroy_each (st :: streams) w)
    with (destroy_each streams (snd (Native.destroyStream (s st) w))).
  now rewrite IH.
Qed.

Lemma destroy_each_calls streams w :
  Native.calls (destroy_each streams w)
  = Native.calls w ++ destroy_calls (Native.refuses w) (map s streams).
Proof.
  revert w. induction streams as [| st streams IH]; intros w.
  - simpl. now rewrite app_nil_r.
  - change (destroy_each (st :: streams) w)
      with (destroy_each streams (snd (Native.destroyStream (s st) w))).
    rewrite IH. simpl. now rewrite <- app_assoc.
Qed.

Lemma destroy_each_live streams w :
  (forall h, h ∈ map s streams -> Native.refuses w h = None) ->
  Native.live (destroy_each streams w)
  = Native.live w ∖ list_to_set (map s streams).
Proof.
  revert w. induction streams as [| st streams IH]; intros w Hok.
  - simpl. set_solver.
  - change (destroy_each (st :: streams) w)
      with (destroy_each streams (snd (Native.destroyStream (s st) w))).
    rewrite IH.
    + simpl. rewrite (Hok (s st)) by (simpl; set_solver). set_solver.
    + intros h Hh. simpl. apply Hok. simpl. set_solver.
Qed.

Lemma created_length log : (length (Native.created log) <= length log)%nat.
Proof.
  induction log as [| [info r | h err] log IH]; simpl; [lia | | lia].
  rewrite length_app. destruct (Native.result r); simpl; lia.
Qed.

Lemma createStream_consistent info w :
  Native.consistent w -> Native.consistent (snd (Native.createStream info w)).
Proof.
  unfold Native.consistent, Native.createStream. simpl.
  intros Hw h. destruct (Native.allocates (Native.next_creation w)).
  - rewrite elem_of_union, elem_of_singleton. intros [-> | Hh]; [lia |].
    specialize (Hw h Hh). lia.
  - apply Hw.
Qed.

Lemma fresh_not_live w : Native.consistent w -> Native.fresh w ∉ Native.live w.
Proof. intros Hw Hin. specialize (Hw _ Hin). lia. Qed.

Lemma createStreams_loop_step count info capacity streams w :
  createStreams_loop (S count) info capacity streams w
  = let r := (Native.createStream info w).1 in
    let w1 := (Native.createStream info w).2 in
    let streams1 :=
      match Native.result r with
      | Some p => streams ++ [{| s := p; memSize := capacity |}]
      | None => streams
      end in
    match Native.error r with
    | Some e => ((None, Some e), destroy_each streams1 w1)
    | None => createStreams_loop count info capacity streams1 w1
    end.
Proof. reflexivity. Qed.

(** The loop of [createStreams], from any state of the slice and of the
    library: the [createStream] calls [cs] it makes, and what follows
    them. *)
Lemma createStreams_loop_spec count :
  forall info capacity streams w,
  exists cs,
    Native.destroyed cs = [] /\ (length cs <= count)%nat /\
    let res := createStreams_loop count info capacity streams w in
    Native.failures cs = option_list (res.1.2) /\
    match res.1.2 with
    | Some _ =>
      res.1.1 = None
      /\ Native.calls res.2
         = Native.calls w ++ cs
           ++ destroy_calls (Native.refuses w) (map s streams ++ Native.created cs)
      /\ (Native.consistent w ->
          (forall h, h ∈ map s streams ++ Native.created cs ->
                     Native.refuses w h = None) ->
          Native.live res.2 = Native.live w ∖ list_to_set (map s streams))
    | None =>
      exists streams',
        res.1.1 = Some streams'
        /\ map s streams' = map s streams ++ Native.created cs
        /\ Native.calls res.2 = Native.calls w ++ cs
    end.
Proof.
  induction count as [| count IH]; intros info capacity streams w.
  - exists []. simpl. repeat split; [lia |].
    exists streams. now rewrite !app_nil_r.
  - rewrite createStreams_loop_step. cbv zeta.
    pose proof (createStream_consistent info w) as Hcons.
    assert (Hcalls : Native.calls (Native.createStream info w).2
                     = Native.calls w
                       ++ [Native.CreateStream info (Native.createStream info w).1])
      by reflexivity.
    assert (Href : Native.refuses (Native.createStream info w).2
                   = Native.refuses w) by reflexivity.
    assert (Hlive : Native.live (Native.createStream info w).2
                    = list_to_set (option_list
                                     (Native.result (Native.createStream info w).1))
                      ∪ Native.live w
                      /\ (Native.consistent w ->
                          forall h,
                            h ∈ option_list
                                  (Native.result (Native.createStream info w).1) ->
                            h ∉ Native.live w)).
    { simpl. destruct (Native.allocates (Native.next_creation w)); simpl.
      - split; [set_solver |]. intros Hw h Hh.
        apply list_elem_of_singleton in Hh as ->. now apply fresh_not_live.
      - split; [set_solver |]. intros _ h Hh. set_solver. }
    destruct Hlive as [Hlive Hnew].
    destruct (Native.createStream info w) as [r w1]. cbn [fst snd] in *.
    set (streams1 := match Native.result r with
                     | Some p => streams ++ [{| s := p; memSize := capacity |}]
                     | None => streams
                     end).
    assert (Hs1 : map s streams1
                  = map s streams ++ option_list (Native.result r)).
    { subst streams1. destruct (Native.result r); simpl.
      - now rewrite map_app.
      - now rewrite app_nil_r. }
    assert (Hc1 : forall cs, Native.created (Native.CreateStream info r :: cs)
                             = option_list (Native.result r) ++ Native.created cs)
      by reflexivity.
    destruct (Native.error r) as [e |] eqn:Herr.
    + exists [Native.CreateStream info r].
      split; [reflexivity |]. split; [simpl; lia |]. cbn [fst snd].
      split; [simpl; now rewrite Herr |].
      split; [reflexivity |]. rewrite Hc1. simpl Native.created.
      rewrite app_nil_r. split.
      * rewrite destroy_each_calls, Hcalls, Href, Hs1.
        now rewrite <- app_assoc.
      * intros Hw Hok. rewrite destroy_each_live.
        -- rewrite Hlive, Hs1. specialize (Hnew Hw). set_solver.
        -- intros h Hh. rewrite Href. apply Hok. now rewrite <- Hs1.
    + destruct (IH info capacity streams1 w1) as (cs & Hd & Hlen & Hfail & Hres).
      exists (Native.CreateStream info r :: cs).
      split; [exact Hd |]. split; [simpl; lia |].
      cbv zeta in *. split; [simpl; now rewrite Herr |].
      rewrite Hc1.
      destruct (createStreams_loop count info capacity streams1 w1).1.2.
      * destruct Hres as (Hnil & Hlog & Hl). split; [exact Hnil |]. split.
        -- rewrite Hlog, Hcalls, Href, Hs1. now rewrite <- !app_assoc.
        -- intros Hw Hok. rewrite Hl.
           ++ rewrite Hlive, Hs1. specialize (Hnew Hw). set_solver.
           ++ now apply Hcons.
           ++ intros h Hh. rewrite Href. apply Hok.
              rewrite Hs1, <- app_assoc in Hh. exact Hh.
      * destruct Hres as (streams' & Hr & Hmap & Hlog).
        exists streams'. split; [exact Hr |]. split.
        -- now rewrite Hmap, Hs1, <- app_assoc.
        -- rewrite Hlog, Hcalls. now rewrite <- app_assoc.
Qed.

Lemma createStream_facts info w :
  Native.calls (Native.createStream info w).2
  = Native.calls w ++ [Native.CreateStream info (Native.createStream info w).1]
  /\ Native.refuses (Native.createStream info w).2 = Native.refuses w
  /\ Native.live (Native.createStream info w).2
     = list_to_set (option_list (Native.result (Native.createStream info w).1))
       ∪ Native.live w
  /\ (Native.fresh w <= Native.fresh (Native.createStream info w).2)%positive
  /\ (forall h, h ∈ option_list (Native.result (Native.createStream info w).1) ->
                h = Native.fresh w
                /\ (h < Native.fresh (Native.createStream info w).2)%positive)
  /\ Native.script (Native.createStream info w).2 = tail (Native.script w)
  /\ Native.result (Native.createStream info w).1
     = (if Native.allocates (Native.next_creation w)
        then Some (Native.fresh w) else None)
  /\ Native.error (Native.createStream info w).1
     = Native.reports (Native.next_creation w).
Proof.
  simpl. destruct (Native.allocates (Native.next_creation w)); simpl.
  - split; [reflexivity |]. split; [reflexivity |]. split; [set_solver |].
    split; [lia |]. split; [| repeat split].
    intros h Hh. apply list_elem_of_singleton in Hh as ->. lia.
  - split; [reflexivity |]. split; [reflexivity |]. split; [set_solver |].
    split; [lia |]. split; [| repeat split].
    intros h Hh. set_solver.
Qed.

(** The loop of [createStreams] when the creations [pre] report no
    error and the next one, [c], reports [e]. *)
Lemma createStreams_loop_fails pre :
  forall count info capacity streams w c post e,
    Native.script w = pre ++ c :: post ->
    (length pre < count)%nat ->
    (forall c', c' ∈ pre -> Native.reports c' = None) ->
    Native.reports c = Some e ->
    exists cs,
      length cs = S (length pre)
      /\ Native.destroyed cs = []
      /\ Native.failures cs = [e]
      /\ Forall (fun call => exists r, call = Native.CreateStream info r) cs
      /\ (createStreams_loop count info capacity streams w).1 = (None, Some e)
      /\ Native.calls (createStreams_loop count info capacity streams w).2
         = Native.calls w ++ cs
           ++ destroy_calls (Native.refuses w) (map s streams ++ Native.created cs)
      /\ (Native.consistent w ->
          (forall h, h ∈ map s streams ++ Native.created cs ->
                     Native.refuses w h = None) ->
          Native.live (createStreams_loop count info capacity streams w).2
          = Native.live w ∖ list_to_set (map s streams)).
Proof.
  induction pre as [| c0 pre IH];
    intros count info capacity streams w c post e Hscript Hcount Hpre Hc;
    (destruct count as [| count]; [simpl in Hcount; lia |]);
    rewrite createStreams_loop_step; cbv zeta;
    pose proof (createStream_consistent info w) as Hcons;
    destruct (createStream_facts info w)
      as (Hcalls & Href & Hlive & _ & Hres & Hsc & _ & Herror);
    unfold Native.next_creation in Herror; rewrite Hscript in Herror, Hsc;
    cbn [app tl] in Herror, Hsc;
    destruct (Native.createStream info w) as [r w1]; cbn [fst snd] in *;
    set (streams1 := match Native.result r with
                     | Some p => streams ++ [{| s := p; memSize := capacity |}]
                     | None => streams
                     end);
    assert (Hs1 : map s streams1
                  = map s streams ++ option_list (Native.result r))
      by (subst streams1; destruct (Native.result r); simpl;
          [now rewrite map_app | now rewrite app_nil_r]);
    assert (Hnew : Native.consistent w ->
                   forall h, h ∈ option_list (Native.result r) ->
                             h ∉ Native.live w)
      by (intros Hw h Hh; apply Hres in Hh as [-> _]; now apply fresh_not_live);
    assert (Hc1 : forall cs, Native.created (Native.CreateStream info r :: cs)
                             = option_list (Native.result r) ++ Native.created cs)
      by reflexivity.
  - rewrite Herror, Hc. exists [Native.CreateStream info r].
    split; [reflexivity |]. split; [reflexivity |].
    split; [simpl; now rewrite Herror, Hc |].
    split; [constructor; [eauto | constructor] |].
    split; [reflexivity |]. cbn [fst snd]. rewrite Hc1. simpl Native.created.
    rewrite app_nil_r. split.
    + rewrite destroy_each_calls, Hcalls, Href, Hs1. now rewrite <- app_assoc.
    + intros Hw Hok. rewrite destroy_each_live.
      * rewrite Hlive, Hs1. specialize (Hnew Hw). set_solver.
      * intros h Hh. rewrite Href. apply Hok. now rewrite <- Hs1.
  - rewrite Herror, (Hpre c0) by set_solver.
    destruct (IH count info capacity streams1 w1 c post e Hsc)
      as (cs & Hlen & Hd & Hf & Hall & Hr & Hlog & Hl);
      [simpl in Hcount; lia | intros c' Hc'; apply Hpre; set_solver | exact Hc |].
    exists (Native.CreateStream info r :: cs).
    split; [simpl; now rewrite Hlen |]. split; [exact Hd |].
    split; [simpl; now rewrite Herror, (Hpre c0) by set_solver |].
    split; [constructor; [eauto | exact Hall] |].
    split; [exact Hr |]. rewrite Hc1. split.
    + rewrite Hlog, Hcalls, Href, Hs1. now rewrite <- !app_assoc.
    + intros Hw Hok. rewrite Hl.
      * rewrite Hlive, Hs1. specialize (Hnew Hw). set_solver.
      * now apply Hcons.
      * intros h Hh. rewrite Href. apply Hok.
        rewrite Hs1, <- app_assoc in Hh. exact Hh.
Qed.

(** [createStreams] panics, before any native call, exactly on a count
    that [make] does not accept. *)
Lemma createStreams_panics_iff max_cap numStreams capacity w :
  ~ returns (createStreams max_cap numStreams capacity w)
  <-> numStreams < 0 \/ max_cap < numStreams.
Proof.
  unfold createStreams.
  destruct (Z.ltb_spec numStreams 0); destruct (Z.ltb_spec max_cap numStreams);
    simpl; split; try tauto; lia.
Qed.

(** C4 (amended).  For a count that [make] accepts, when the
    [createStream] calls of the run report no error until one, not
    later than the [numStreams]-th, reports [e]: [createStreams] makes
    no further [createStream] call, passes every context the run
    created, the one of the failing call included, to [destroyStream]
    once, in creation order, dropping the answers, and returns a [nil]
    slice with the error [e].  If the allocator is consistent and none
    of these destructions is refused, the live contexts are again those
    from before the run. *)
Theorem createStreams_unwinds_on_failure (max_cap numStreams capacity : Z)
    (w : Native.world) (pre post : list Native.creation) (c : Native.creation)
    (e : string) :
  0 <= numStreams <= max_cap ->
  Native.script w = pre ++ c :: post ->
  (length pre < Z.to_nat numStreams)%nat ->
  (forall c', c' ∈ pre -> Native.reports c' = None) ->
  Native.reports c = Some e ->
  exists w' cs,
    createStreams max_cap numStreams capacity w = Ret ((None, Some e), w')
    /\ length cs = S (length pre)
    /\ Native.destroyed cs = []
    /\ Native.failures cs = [e]
    /\ Forall (fun call => exists r,
                   call = Native.CreateStream
                            {| Native.capacity := capacity mod 2 ^ 64 |} r) cs
    /\ Native.calls w'
       = Native.calls w ++ cs
         ++ destroy_calls (Native.refuses w) (Native.created cs)
    /\ (Native.consistent w ->
        (forall h, h ∈ Native.created cs -> Native.refuses w h = None) ->
        Native.live w' = Native.live w).
Proof.
  intros [Hlo Hhi] Hscript Hcount Hpre Hc. unfold createStreams.
  destruct (Z.ltb_spec numStreams 0); [lia |].
  destruct (Z.ltb_spec max_cap numStreams); [lia |]. cbn [orb].
  set (info := {| Native.capacity := capacity mod 2 ^ 64 |}).
  destruct (createStreams_loop_fails pre (Z.to_nat numStreams) info capacity []
              w c post e Hscript Hcount Hpre Hc)
    as (cs & Hlen & Hd & Hf & Hall & Hr & Hlog & Hl).
  destruct (createStreams_loop (Z.to_nat numStreams) info capacity [] w)
    as [res w']. cbn [fst snd] in *. subst res.
  exists w', cs. split; [reflexivity |].
  split; [exact Hlen |]. split; [exact Hd |]. split; [exact Hf |].
  split; [exact Hall |]. split; [exact Hlog |].
  intros Hw Hok. rewrite Hl; [set_solver | exact Hw | exact Hok].
Qed.

Lemma createStreams_unwinds_on_failure_witness :
  exists w' cs,
    createStreams sample_max_cap 4 65536
      (device [created_ok; created_ok; creation_fails "out of memory"]
              never_refuses)
    = Ret ((None, Some "out of memory"%string), w')
    /\ length cs = S (length [created_ok; created_ok])
    /\ Native.destroyed cs = []
    /\ Native.failures cs = ["out of memory"%string]
    /\ Forall (fun call => exists r,
                   call = Native.CreateStream
                            {| Native.capacity := 65536 mod 2 ^ 64 |} r) cs
    /\ Native.calls w'
       = Native.calls
           (device [created_ok; created_ok; creation_fails "out of memory"]
                   never_refuses)
         ++ cs ++ destroy_calls never_refuses (Native.created cs)
    /\ (Native.consistent
          (device [created_ok; created_ok; creation_fails "out of memory"]
                  never_refuses) ->
        (forall h, h ∈ Native.created cs -> never_refuses h = None) ->
        Native.live w'
        = Native.live
            (device [created_ok; created_ok; creation_fails "out of memory"]
                    never_refuses)).
Proof.
  apply (createStreams_unwinds_on_failure sample_max_cap 4 65536
           (device [created_ok; created_ok; creation_fails "out of memory"]
                   never_refuses)
           [created_ok; created_ok] [] (creation_fails "out of memory")).
  - vm_compute. split; discriminate.
  - reflexivity.
  - simpl. lia.
  - intros c' Hc'. apply elem_of_cons in Hc' as [-> | Hc']; [reflexivity |].
    apply list_elem_of_singleton in Hc' as ->. reflexivity.
  - reflexivity.
Defined.

(** The second of two creations fails and the destruction of the first
    context is refused: [createStreams] returns the [nil] slice and the
    creation error while that context is still allocated. *)
Lemma createStreams_leaks_when_cleanup_refused :
  exists w',
    createStreams sample_max_cap 2 65536
      (device [created_ok; creation_fails "out of memory"]
              (refuses_only 1%positive "invalid resource handle"))
    = Ret ((None, Some "out of memory"%string), w')
    /\ Native.live
         (device [created_ok; creation_fails "out of memory"]
                 (refuses_only 1%positive "invalid resource handle")) = ∅
    /\ Native.destroyed (Native.calls w') = [1%positive]
    /\ Native.live w' = {[1%positive]}.
Proof. eexists. split; [reflexivity |]. repeat split. Qed.

(** The third of four creations fails: the two contexts created before
    it are destroyed and the device is left as it was. *)
Lemma createStreams_third_fails :
  exists w',
    createStreams sample_max_cap 4 65536
      (device [created_ok; created_ok; creation_fails "out of memory"]
              never_refuses)
    = Ret ((None, Some "out of memory"%string), w')
    /\ Native.destroyed (Native.calls w') = [1%positive; 2%positive]
    /\ Native.created (Native.calls w') = [1%positive; 2%positive]
    /\ Native.live w' = ∅.
Proof. eexists. split; [reflexivity |]. repeat split. Qed.

(** A count above the run time's limit panics before any native call. *)
Lemma createStreams_huge_count_panics :
  createStreams sample_max_cap (2 ^ 62) 65536 (device [] never_refuses)
  = Panic "runtime error: makeslice: cap out of range".
Proof. reflexivity. Qed.

Lemma destroyStreams_all_ok streams w :
  (forall st, st ∈ streams -> Native.refuses w (s st) = None) ->
  destroyStreams streams w = (None, destroy_each streams w).
Proof.
  revert w. induction streams as [| st streams IH]; intros w Hok; [done |].
  change (destroy_each (st :: streams) w)
    with (destroy_each streams (snd (Native.destroyStream (s st) w))).
  simpl. rewrite (Hok st) by set_solver. apply IH.
  intros st' Hst'. simpl. apply Hok. set_solver.
Qed.

(** [destroyStreams] returns at the first refused destruction: the
    streams after it are never passed to [destroyStream]. *)
Lemma destroyStreams_first_refusal pre st post w e :
  (forall st', st' ∈ pre -> Native.refuses w (s st') = None) ->
  Native.refuses w (s st) = Some e ->
  destroyStreams (pre ++ st :: post) w = (Some e, destroy_each (pre ++ [st]) w).
Proof.
  revert w. induction pre as [| st0 pre IH]; intros w Hok Hst.
  - simpl. now rewrite Hst.
  - change (destroy_each ((st0 :: pre) ++ [st]) w)
      with (destroy_each (pre ++ [st]) (snd (Native.destroyStream (s st0) w))).
    simpl. rewrite (Hok st0) by set_solver. apply IH.
    + intros st' Hst'. simpl. apply Hok. set_solver.
    + exact Hst.
Qed.

(** C3, on the code.  Two streams are open and the destruction of the
    first is refused: [destroyStreams] reports the error after that one
    call, the second stream is never passed to [destroyStream] and its
    context stays live; the clean-up loop of [createStreams] on the
    same slice passes both. *)
Theorem destroyStreams_stops_at_first_failure :
  exists st1 st2 w1 w2,
    createStreams sample_max_cap 2 65536
      (device [] (refuses_only 1%positive "invalid resource handle"))
    = Ret ((Some [st1; st2], None), w1)
    /\ destroyStreams [st1; st2] w1
       = (Some "invalid resource handle"%string, w2)
    /\ Native.destroyed (calls_since w1 w2) = [s st1]
    /\ s st2 ∈ Native.live w2
    /\ Native.destroyed (calls_since w1 (destroy_each [st1; st2] w1))
       = [s st1; s st2].
Proof.
  do 4 eexists. split; [reflexivity |]. split; [reflexivity |].
  split; [reflexivity |]. split; [| reflexivity].
  simpl. set_solver.
Qed.

(** ** The stream pool *)

Lemma createStreams_length max_cap numStreams capacity w streams w' :
  createStreams max_cap numStreams capacity w
  = Ret ((Some streams, None), w') ->
  (length streams <= Z.to_nat numStreams)%nat.
Proof.
  unfold createStreams.
  destruct ((numStreams <? 0) || (max_cap <? numStreams)); [discriminate |].
  set (info := {| Native.capacity := capacity mod 2 ^ 64 |}).
  destruct (createStreams_loop_spec (Z.to_nat numStreams) info capacity [] w)
    as (cs & _ & Hlen & Hspec).
  intros [= Hloop]. rewrite Hloop in Hspec. cbn [fst snd] in Hspec.
  destruct Hspec as (_ & streams' & [= <-] & Hmap & _).
  pose proof (created_length cs) as Hc.
  apply (f_equal length) in Hmap. rewrite length_map in Hmap.
  simpl in Hmap. lia.
Qed.

Lemma size_list_to_set_le (l : list Stream) :
  (size (list_to_set l : gset Stream) <= length l)%nat.
Proof.
  induction l as [| x l IH].
  - rewrite list_to_set_nil, size_empty. simpl. lia.
  - rewrite list_to_set_cons, size_union_alt, size_singleton. simpl.
    assert (size (list_to_set l ∖ {[x]} : gset Stream)
            <= size (list_to_set l : gset Stream))%nat
      by (apply subseteq_size; set_solver).
    lia.
Qed.

Lemma pool_inv_step p0 p a p1 :
  pool_inv p0 p -> Pool.step a p = Some p1 -> pool_inv p0 p1.
Proof.
  intros (Hm & Hout & Hidle) Hstep. unfold pool_inv.
  destruct a as [st | st |]; simpl in Hstep.
  - destruct (Pool.closed p); [discriminate |].
    destruct (decide (st ∈ Pool.idle p)); [| discriminate].
    injection Hstep as <-. simpl. set_solver.
  - destruct (decide (st ∈ Pool.checked_out p)); [| discriminate].
    injection Hstep as <-. simpl. set_solver.
  - injection Hstep as <-. simpl. set_solver.
Qed.

Lemma pool_inv_run acts :
  forall p0 p p1, pool_inv p0 p -> Pool.run acts p = Some p1 -> pool_inv p0 p1.
Proof.
  induction acts as [| a acts IH]; intros p0 p p1 Hinv Hrun; simpl in Hrun.
  - now injection Hrun as <-.
  - destruct (Pool.step a p) as [p' |] eqn:Hstep; [| discriminate].
    simpl in Hrun. eapply IH; [| exact Hrun].
    eapply pool_inv_step; eauto.
Qed.

(** With both streams of a two-stream pool checked out, a third
    acquisition does not take place. *)
Lemma pool_third_acquire_waits :
  Pool.run [Pool.Acquire {| s := 1%positive; memSize := 65536 |};
            Pool.Acquire {| s := 2%positive; memSize := 65536 |};
            Pool.Acquire {| s := 1%positive; memSize := 65536 |}]
           (Pool.of_streams [{| s := 1%positive; memSize := 65536 |};
                             {| s := 2%positive; memSize := 65536 |}])
  = None.
Proof. vm_compute. reflexivity. Qed.

(** C8.  In every state a pool opened with [streamCount] streams
    reaches, the checked-out streams are members of the pool and there
    are at most [streamCount] of them. *)
Theorem pool_checkout_bound (max_cap streamCount memoryBudgetPerStream : Z)
    (w w' : Native.world) (pool p : Pool.StreamPool) :
  Pool.open max_cap streamCount memoryBudgetPerStream w
  = Ret ((Some pool, None), w') ->
  Pool.reachable pool p ->
  (size (Pool.checked_out p) <= Z.to_nat streamCount)%nat
  /\ Pool.checked_out p ⊆ Pool.members p.
Proof.
  intros Hopen [acts Hrun]. unfold Pool.open in Hopen.
  destruct (createStreams max_cap streamCount memoryBudgetPerStream w)
    as [[[r err] w1] | msg] eqn:Hcreate; [| discriminate].
  simpl in Hopen.
  destruct r as [streams |]; [| destruct err; discriminate].
  destruct err; [discriminate |]. injection Hopen as <- <-.
  assert (Hinv : pool_inv (Pool.of_streams streams) p).
  { eapply pool_inv_run; [| exact Hrun].
    unfold pool_inv, Pool.of_streams. simpl. set_solver. }
  destruct Hinv as (Hm & Hout & _). split; [| exact Hout].
  apply subseteq_size in Hout. rewrite Hm in Hout. simpl in Hout.
  pose proof (size_list_to_set_le streams).
  pose proof (createStreams_length _ _ _ _ _ _ Hcreate). lia.
Qed.

Lemma pool_checkout_bound_witness :
  exists pool w' p st1 st2,
    Pool.open sample_max_cap 2 65536 (device [] never_refuses)
    = Ret ((Some pool, None), w')
    /\ Pool.run [Pool.Acquire st1; Pool.Acquire st2; Pool.Release st1;
                 Pool.Acquire st1] pool = Some p
    /\ (size (Pool.checked_out p) <= Z.to_nat 2)%nat
    /\ Pool.checked_out p ⊆ Pool.members p.
Proof.
  eexists _, _, _, {| s := 1%positive; memSize := 65536 |},
           {| s := 2%positive; memSize := 65536 |}.
  split; [reflexivity |].
  split; [vm_compute; reflexivity |].
  eapply (pool_checkout_bound sample_max_cap 2 65536 (device [] never_refuses)).
  - reflexivity.
  - exists [Pool.Acquire {| s := 1%positive; memSize := 65536 |};
            Pool.Acquire {| s := 2%positive; memSize := 65536 |};
            Pool.Release {| s := 1%positive; memSize := 65536 |};
            Pool.Acquire {| s := 1%positive; memSize := 65536 |}].
    vm_compute. reflexivity.
Defined.

(** ** Serialization *)

Lemma bind_Ret {A B : Type} (f : A -> outcome B) (a : A) : (Ret a ≫= f) = f a.
Proof. reflexivity. Qed.

Lemma bind_Panic {A B : Type} (f : A -> outcome B) (msg : string) :
  (Panic msg ≫= f) = Panic msg.
Proof. reflexivity. Qed.

Lemma for_loop_ext {St : Type} (body body' : Z -> St -> outcome St) count :
  forall i st,
    (forall j st', i <= j < i + Z.of_nat count -> body j st' = body' j st') ->
    for_loop count i body st = for_loop count i body' st.
Proof.
  induction count as [| count IH]; intros i st Hext; [reflexivity |].
  simpl. rewrite Hext by lia.
  destruct (body' i st) as [st1 | msg]; [| reflexivity].
  rewrite !bind_Ret. apply IH. intros j st' Hj. apply Hext. lia.
Qed.

Section Replay.
Context {Mem : Type} (store : Mem -> Z -> byte -> outcome Mem).

Lemma replay_on_app l1 l2 (m : Mem) :
  replay_on store (l1 ++ l2) m = replay_on store l1 m ≫= replay_on store l2.
Proof.
  revert m. induction l1 as [| [k b] l1 IH]; intros m; [reflexivity |].
  simpl. destruct (store m k b) as [m1 | msg]; [| reflexivity].
  rewrite !bind_Ret. apply IH.
Qed.

(** A loop whose body is one assignment carries out the assignments of
    its index range. *)
Lemma for_loop_stores (g : Z -> Z) (h : Z -> byte) count :
  forall i (m : Mem),
    for_loop count i (fun j m' => store m' (g j) (h j)) m
    = replay_on store ((fun j => (g j, h j)) <$> seqZ i (Z.of_nat count)) m.
Proof.
  induction count as [| count IH]; intros i m; [reflexivity |].
  rewrite seqZ_cons by lia.
  replace (Z.pred (Z.of_nat (S count))) with (Z.of_nat count) by lia.
  simpl. destruct (store m (g i) (h i)) as [m1 | msg]; [| reflexivity].
  rewrite !bind_Ret. replace (i + 1) with (Z.succ i) by lia. apply IH.
Qed.

(** [putInt] carries out its listed assignments, whatever the
    destination is. *)
Lemma putInt_on_replay (dst : Mem) src n :
  putInt_on store dst src n = replay_on store (putInt_assignments src n) dst.
Proof.
  unfold putInt_on, putInt_assignments, for_range. cbv zeta.
  rewrite replay_on_app.
  rewrite (for_loop_ext _
             (fun j m' => store m' (len src - j - 1)
                                (default x00 (src !! Z.to_nat j)))).
  - rewrite for_loop_stores.
    replace (Z.of_nat (Z.to_nat (len src - 0))) with (len src)
      by (unfold len; lia).
    destruct (replay_on store _ dst) as [m1 | msg]; [| reflexivity].
    rewrite !bind_Ret, for_loop_stores.
    destruct (Z.le_gt_cases (len src) n).
    + now replace (Z.of_nat (Z.to_nat (n - len src))) with (n - len src) by lia.
    + rewrite (seqZ_nil _ (n - len src)) by lia.
      now replace (Z.to_nat (n - len src)) with 0%nat by lia.
  - intros j m' Hj.
    destruct (lookup_lt_is_Some_2 src (Z.to_nat j)) as [b ->]; [| reflexivity].
    unfold len in Hj. lia.
Qed.

End Replay.

Lemma replay_on_store_log l log :
  replay_on store_log l log = Ret (log ++ l).
Proof.
  revert log. induction l as [| [k b] l IH]; intros log; simpl.
  - now rewrite app_nil_r.
  - rewrite IH. now rewrite <- app_assoc.
Qed.

Lemma store_slice_Ret dst k b :
  0 <= k < len dst -> store_slice dst k b = Ret (<[Z.to_nat k := b]> dst).
Proof.
  intros Hk. unfold store_slice.
  destruct (Z.leb_spec 0 k); [| lia]. destruct (Z.ltb_spec k (len dst)); [| lia].
  reflexivity.
Qed.

Lemma store_slice_Panic dst k b :
  ~ (0 <= k < len dst) ->
  store_slice dst k b = Panic (index_panic k (len dst)).
Proof.
  intros Hk. unfold store_slice.
  destruct (Z.leb_spec 0 k); destruct (Z.ltb_spec k (len dst));
    simpl; try reflexivity; lia.
Qed.

Lemma len_insert (dst : list byte) i b : len (<[i := b]> dst) = len dst.
Proof. unfold len. now rewrite length_insert. Qed.

(** Replaying on a slice returns exactly when every index is within the
    slice. *)
Lemma replay_returns_iff l :
  forall dst,
    returns (replay l dst) <-> (forall k, k ∈ l.*1 -> 0 <= k < len dst).
Proof.
  unfold replay.
  induction l as [| [k b] l IH]; intros dst; simpl.
  - split; [intros _ k' Hk'; set_solver | trivial].
  - destruct (decide (0 <= k < len dst)) as [Hk | Hk].
    + rewrite store_slice_Ret, bind_Ret by exact Hk.
      rewrite IH, len_insert. split.
      * intros Hall k' Hk'. apply elem_of_cons in Hk' as [-> | Hk']; auto.
      * intros Hall k' Hk'. apply Hall. set_solver.
    + rewrite store_slice_Panic, bind_Panic by exact Hk. simpl.
      split; [tauto |]. intros Hall. apply Hk, Hall. set_solver.
Qed.

(** The indices [putInt] assigns are those from 0 up to the larger of
    [len(src)] and [n]. *)
Lemma putInt_assignments_indices src n k :
  k ∈ (putInt_assignments src n).*1 <-> 0 <= k < Z.max (len src) n.
Proof.
  unfold putInt_assignments.
  rewrite fmap_app, elem_of_app, <- !list_fmap_compose.
  rewrite !list_elem_of_fmap.
  assert (0 <= len src) by (unfold len; lia).
  split.
  - intros [(i & -> & Hi) | (i & -> & Hi)];
      apply elem_of_seqZ in Hi; simpl; lia.
  - intros Hk. destruct (Z.lt_ge_cases k (len src)).
    + left. exists (len src - k - 1). split; [simpl; lia |].
      apply elem_of_seqZ. lia.
    + right. exists k. split; [reflexivity |]. apply elem_of_seqZ. lia.
Qed.

(** The first loop, from index [i] on: the first [count] bytes of the
    destination become the rest of the source, reversed. *)
Lemma replay_reversed src count :
  forall i (d : list byte),
    0 <= i -> i + Z.of_nat count = len src -> (count <= length d)%nat ->
    replay ((fun j => (len src - j - 1, default x00 (src !! Z.to_nat j)))
              <$> seqZ i (Z.of_nat count)) d
    = Ret (reverse (drop (Z.to_nat i) src) ++ drop count d).
Proof.
  unfold replay.
  induction count as [| count IH]; intros i d Hi Hlen Hd.
  - simpl. rewrite drop_ge by (unfold len in Hlen; lia). reflexivity.
  - rewrite seqZ_cons by lia.
    replace (Z.pred (Z.of_nat (S count))) with (Z.of_nat count) by lia.
    rewrite fmap_cons. cbn [replay_on].
    destruct (lookup_lt_is_Some_2 src (Z.to_nat i)) as [x Hx];
      [unfold len in Hlen; lia |].
    rewrite Hx. cbn [default].
    replace (len src - i - 1) with (Z.of_nat count) by lia.
    rewrite store_slice_Ret by (unfold len; lia).
    rewrite bind_Ret, Nat2Z.id, IH;
      [| lia | lia | rewrite length_insert; lia].
    f_equal.
    replace (Z.to_nat (Z.succ i)) with (S (Z.to_nat i)) by lia.
    rewrite (drop_S src x (Z.to_nat i) Hx), reverse_cons.
    rewrite (drop_S (<[count := x]> d) x count)
      by (apply list_lookup_insert_eq; lia).
    rewrite drop_insert_lt by lia.
    now rewrite <- app_assoc.
Qed.

(** The second loop, from index [i] on: [count] bytes from [i] become
    zero, the rest stays. *)
Lemma replay_zeros count :
  forall i (d : list byte),
    0 <= i -> i + Z.of_nat count <= len d ->
    replay ((fun j => (j, x00)) <$> seqZ i (Z.of_nat count)) d
    = Ret (take (Z.to_nat i) d ++ replicate count x00
           ++ drop (Z.to_nat i + count) d).
Proof.
  unfold replay.
  induction count as [| count IH]; intros i d Hi Hlen.
  - simpl. now rewrite Nat.add_0_r, take_drop.
  - rewrite seqZ_cons by lia.
    replace (Z.pred (Z.of_nat (S count))) with (Z.of_nat count) by lia.
    rewrite fmap_cons. cbn [replay_on].
    rewrite store_slice_Ret by lia.
    rewrite bind_Ret, IH; [| lia | rewrite len_insert; lia].
    f_equal.
    replace (Z.to_nat (Z.succ i)) with (S (Z.to_nat i)) by lia.
    rewrite (take_S_r _ (Z.to_nat i) x00)
      by (apply list_lookup_insert_eq; unfold len in Hlen; lia).
    rewrite take_insert_ge by lia.
    rewrite drop_insert_lt by lia.
    rewrite <- app_assoc. simpl.
    now replace (Z.to_nat i + S count)%nat with (S (Z.to_nat i + count)) by lia.
Qed.

(** What [putInt] leaves in a destination that is long enough: the
    source reversed, zeroes up to [n], and the old bytes from then on. *)
Lemma putInt_result dst src n :
  Z.max (len src) n <= len dst ->
  putInt dst src n
  = Ret (reverse src ++ replicate (Z.to_nat (n - len src)) x00
         ++ drop (Z.to_nat (Z.max (len src) n)) dst).
Proof.
  intros Hfit. unfold putInt. rewrite putInt_on_replay.
  unfold putInt_assignments. rewrite replay_on_app.
  pose proof (replay_reversed src (length src) 0 dst) as H1.
  unfold replay in H1. fold (len src) in H1.
  rewrite H1 by (unfold len in *; lia). clear H1.
  rewrite bind_Ret. change (Z.to_nat 0) with 0%nat. rewrite drop_0.
  pose proof (replay_zeros (Z.to_nat (n - len src)) (len src)
                (reverse src ++ drop (length src) dst)) as H2.
  unfold replay in H2.
  assert (Hl : len (reverse src ++ drop (length src) dst) = len dst).
  { unfold len in *. rewrite length_app, length_reverse, length_drop. lia. }
  destruct (Z.le_gt_cases n (len src)) as [Hle | Hgt].
  - rewrite (seqZ_nil _ (n - len src)) by lia. simpl.
    replace (Z.to_nat (n - len src)) with 0%nat by lia.
    replace (Z.to_nat (Z.max (len src) n)) with (length src)
      by (unfold len in *; lia).
    reflexivity.
  - replace (n - len src) with (Z.of_nat (Z.to_nat (n - len src))) at 1 by lia.
    rewrite H2 by (unfold len in *; lia). clear H2.
    f_equal. unfold len.
    rewrite Nat2Z.id, take_app_length' by (now rewrite length_reverse).
    f_equal. f_equal.
    rewrite drop_app_ge by (rewrite length_reverse; lia).
    rewrite length_reverse, drop_drop. f_equal. unfold len in *. lia.
Qed.

(** C10.  [putInt] makes the assignments listed in
    [putInt_assignments], on a slice as on a destination without
    bounds: index [len(src) - i - 1] gets [src[i]], then the indices
    from [len(src)] up to [n] get zero.  The indices assigned are
    exactly those from 0 up to [max (len src) n].  So [putInt] returns
    without an index panic if and only if [max (len src) n <= len dst],
    leaving the source reversed, zeroes up to [n] and the old bytes
    after; with [len(dst) >= n] but a longer source it panics. *)
Theorem putInt_writes_and_bounds (dst src : list byte) (n : Z) :
  putInt_stores src n = Ret (putInt_assignments src n)
  /\ putInt dst src n = replay (putInt_assignments src n) dst
  /\ (forall k, k ∈ (putInt_assignments src n).*1
                <-> 0 <= k < Z.max (len src) n)
  /\ (returns (putInt dst src n) <-> Z.max (len src) n <= len dst)
  /\ (forall dst', putInt dst src n = Ret dst' ->
        dst' = reverse src ++ replicate (Z.to_nat (n - len src)) x00
               ++ drop (Z.to_nat (Z.max (len src) n)) dst)
  /\ (n <= len dst < len src -> ~ returns (putInt dst src n)).
Proof.
  assert (Hreplay : putInt dst src n = replay (putInt_assignments src n) dst)
    by apply putInt_on_replay.
  assert (Hiff : returns (putInt dst src n) <-> Z.max (len src) n <= len dst).
  { rewrite Hreplay, replay_returns_iff. split.
    - intros Hall. destruct (Z.le_gt_cases (Z.max (len src) n) (len dst)) as [| Hgt];
        [assumption |].
      assert (Hin : len dst ∈ (putInt_assignments src n).*1)
        by (apply putInt_assignments_indices; unfold len in *; lia).
      specialize (Hall _ Hin). lia.
    - intros Hfit k Hk. apply putInt_assignments_indices in Hk. lia. }
  split.
  { unfold putInt_stores. rewrite putInt_on_replay.
    apply replay_on_store_log. }
  split; [exact Hreplay |].
  split; [intros k; apply putInt_assignments_indices |].
  split; [exact Hiff |].
  split.
  - intros dst' Hret.
    assert (Hfit : Z.max (len src) n <= len dst)
      by (apply Hiff; rewrite Hret; exact I).
    rewrite putInt_result in Hret by exact Hfit. now injection Hret as <-.
  - intros Hshort Hret. apply Hiff in Hret. lia.
Qed.

(** A destination as long as [n] asks, with a longer source: the first
    assignment is out of range. *)
Lemma putInt_longer_source_panics :
  2 <= len [x00; x00]
  /\ putInt [x00; x00] [x01; x02; x03] 2
     = Panic "runtime error: index out of range [2] with length 2".
Proof. split; [unfold len; simpl; lia | reflexivity]. Qed.

Lemma reverse_left_pad n src :
  reverse (left_pad n src)
  = reverse src ++ replicate (Z.to_nat (n - len src)) x00.
Proof. unfold left_pad. now rewrite reverse_app, reverse_replicate. Qed.

(** C2 (amended).  For a value shorter than the field width [n], in a
    destination of at least [n] bytes, [putInt] writes the value's
    bytes in reversed order followed by zero bytes up to [n]: the field
    holds the reversal of the value left-padded with zeroes to width
    [n], and the bytes after the field are untouched. *)
Theorem putInt_pads_short_value (dst src : list byte) (n : Z) :
  len src < n -> n <= len dst ->
  putInt dst src n
  = Ret (reverse src ++ replicate (Z.to_nat (n - len src)) x00
         ++ drop (Z.to_nat n) dst)
  /\ putInt dst src n
     = Ret (reverse (left_pad n src) ++ drop (Z.to_nat n) dst).
Proof.
  intros Hshort Hfit.
  assert (Hres : putInt dst src n
                 = Ret (reverse src ++ replicate (Z.to_nat (n - len src)) x00
                        ++ drop (Z.to_nat n) dst)).
  { rewrite putInt_result by lia.
    now replace (Z.max (len src) n) with n by lia. }
  split; [exact Hres |].
  now rewrite Hres, reverse_left_pad, <- app_assoc.
Qed.

Lemma putInt_pads_short_value_witness :
  putInt [xff; xff; xff; xff; xff] [x01; x02] 4
  = Ret (reverse [x01; x02] ++ replicate (Z.to_nat (4 - len [x01; x02])) x00
         ++ drop (Z.to_nat 4) [xff; xff; xff; xff; xff])
  /\ putInt [xff; xff; xff; xff; xff] [x01; x02] 4
     = Ret (reverse (left_pad 4 [x01; x02])
            ++ drop (Z.to_nat 4) [xff; xff; xff; xff; xff]).
Proof.
  apply (putInt_pads_short_value [xff; xff; xff; xff; xff] [x01; x02] 4).
  - unfold len. simpl. lia.
  - unfold len. simpl. lia.
Defined.

(** A two-byte value in a four-byte field: the field holds the value
    reversed and padded at the end, not the value padded at the front. *)
Lemma putInt_does_not_left_pad :
  len [x01; x02] < 4
  /\ putInt [xff; xff; xff; xff] [x01; x02] 4 = Ret [x02; x01; x00; x00]
  /\ left_pad 4 [x01; x02] = [x00; x00; x01; x02]
  /\ [x02; x01; x00; x00] <> left_pad 4 [x01; x02].
Proof.
  split; [unfold len; simpl; lia |]. split; [reflexivity |].
  split; [reflexivity |]. discriminate.
Qed.

(** * Further properties of the code *)

(** ** Sizing *)

Section SizingMore.
Context {enum_kernel : Type} (C : powm_odd_export enum_kernel).

(** [streamSizeContaining] is the exact size wrapped once, whatever
    wraps on the way. *)
Lemma streamSizeContaining_wrap g n kernel :
  streamSizeContaining C g n kernel
  = GoInt.wrap (getConstantsSize C g (enum_kernel_of_int C kernel)
                + n * (getInputSize C g (enum_kernel_of_int C kernel)
                       + getOutputSize C g (enum_kernel_of_int C kernel))).
Proof.
  unfold streamSizeContaining, GoInt.add, GoInt.mul.
  set (k := enum_kernel_of_int C kernel).
  set (i := getInputSize C g k). set (o := getOutputSize C g k).
  set (c := getConstantsSize C g k).
  rewrite wrap_add_wrap_l.
  destruct (wrap_decomp (i * n)) as [k1 ->].
  destruct (wrap_decomp (o * n)) as [k2 ->].
  apply (wrap_congr _ _ (k1 + k2)). lia.
Qed.

Lemma streamSizeContaining_wrap_slots g n kernel :
  streamSizeContaining C g n kernel
  = GoInt.wrap (getConstantsSize C g (enum_kernel_of_int C kernel)
                + slotSize C g (enum_kernel_of_int C kernel) * n).
Proof.
  rewrite streamSizeContaining_wrap. unfold slotSize, GoInt.add.
  destruct (wrap_decomp (getInputSize C g (enum_kernel_of_int C kernel)
                         + getOutputSize C g (enum_kernel_of_int C kernel)))
    as [k ->].
  symmetry. apply (wrap_congr _ _ (k * n)). lia.
Qed.

(** Without wrap-around [maxSlots] is the floor of the quotient, or 0
    below the constants size. *)
Lemma maxSlots_no_wrap g B op :
  GoInt.min_int <= B - getConstantsSize C g op <= GoInt.max_int ->
  0 < slotSize C g op ->
  maxSlots C g B op
  = Ret (Z.max 0 ((B - getConstantsSize C g op) / slotSize C g op)).
Proof.
  intros [Hlo Hhi] Hslot.
  destruct (Z.lt_ge_cases (B - getConstantsSize C g op) 0) as [Hneg | Hpos].
  - rewrite maxSlots_below_constants by lia. f_equal.
    assert ((B - getConstantsSize C g op) / slotSize C g op < 0)
      by (apply Z.div_lt_upper_bound; lia).
    lia.
  - rewrite (maxSlots_quot C g B op (B - getConstantsSize C g op));
      [| apply wrap_small; int_consts; lia | lia | lia].
    rewrite Z.quot_div_nonneg by lia.
    f_equal. pose proof (Z.div_pos _ _ Hpos Hslot). lia.
Qed.

End SizingMore.

(** X1.  When the exact size, constants plus [numItems] times input
    plus output, fits an [int], [streamSizeContaining] returns it, even
    if a product or partial sum on the way wrapped around. *)
Theorem streamSizeContaining_exact {enum_kernel : Type}
    (C : powm_odd_export enum_kernel) (g : gpumathsEnv) (numItems kernel : Z) :
  GoInt.in_range
    (getConstantsSize C g (enum_kernel_of_int C kernel)
     + numItems * (getInputSize C g (enum_kernel_of_int C kernel)
                   + getOutputSize C g (enum_kernel_of_int C kernel))) ->
  streamSizeContaining C g numItems kernel
  = getConstantsSize C g (enum_kernel_of_int C kernel)
    + numItems * (getInputSize C g (enum_kernel_of_int C kernel)
                  + getOutputSize C g (enum_kernel_of_int C kernel)).
Proof.
  intros Hfit. rewrite streamSizeContaining_wrap. now apply wrap_small.
Qed.

Lemma streamSizeContaining_exact_witness :
  streamSizeContaining sample_export gpumaths4096 32768 1
  = getConstantsSize sample_export gpumaths4096
      (enum_kernel_of_int sample_export 1)
    + 32768 * (getInputSize sample_export gpumaths4096
                 (enum_kernel_of_int sample_export 1)
               + getOutputSize sample_export gpumaths4096
                   (enum_kernel_of_int sample_export 1)).
Proof.
  apply (streamSizeContaining_exact sample_export gpumaths4096 32768 1).
  vm_compute. split; discriminate.
Defined.

(** X2.  For a budget [B] that is an [int], at least the constants
    size, and a positive slot size, the slot count [maxSlots] returns
    fits the budget, [streamSizeContaining] of it is at most [B], and
    one more slot does not fit. *)
Theorem maxSlots_fits_and_is_maximal {enum_kernel : Type}
    (C : powm_odd_export enum_kernel) (g : gpumathsEnv) (B kernel : Z) :
  B <= GoInt.max_int ->
  0 <= B - getConstantsSize C g (enum_kernel_of_int C kernel) <= GoInt.max_int ->
  0 < slotSize C g (enum_kernel_of_int C kernel) ->
  exists m,
    maxSlots C g B (enum_kernel_of_int C kernel) = Ret m
    /\ 0 <= m
    /\ streamSizeContaining C g m kernel <= B
    /\ B < getConstantsSize C g (enum_kernel_of_int C kernel)
           + (m + 1) * slotSize C g (enum_kernel_of_int C kernel).
Proof.
  intros HB [Hlo Hhi] Hslot.
  set (op := enum_kernel_of_int C kernel) in *.
  set (c := getConstantsSize C g op) in *. set (sl := slotSize C g op) in *.
  exists ((B - c) / sl).
  pose proof (Z.div_pos (B - c) sl Hlo Hslot) as Hm.
  pose proof (Z.mul_div_le (B - c) sl Hslot) as Hle.
  pose proof (Z.mul_succ_div_gt (B - c) sl Hslot) as Hgt.
  pose proof (getConstantsSize_in_range C g op) as Hc. fold c in Hc.
  split.
  { subst c sl. rewrite maxSlots_no_wrap by (int_consts; lia).
    f_equal. lia. }
  split; [exact Hm |]. split; [| lia].
  rewrite streamSizeContaining_wrap_slots. fold op c sl.
  rewrite wrap_small; [lia |]. int_consts. lia.
Qed.

Lemma maxSlots_fits_and_is_maximal_witness :
  exists m,
    maxSlots sample_export gpumaths4096 65536 (enum_kernel_of_int sample_export 1)
    = Ret m
    /\ 0 <= m
    /\ streamSizeContaining sample_export gpumaths4096 m 1 <= 65536
    /\ 65536 < getConstantsSize sample_export gpumaths4096
                 (enum_kernel_of_int sample_export 1)
               + (m + 1) * slotSize sample_export gpumaths4096
                             (enum_kernel_of_int sample_export 1).
Proof.
  apply (maxSlots_fits_and_is_maximal sample_export gpumaths4096 65536 1).
  - vm_compute. discriminate.
  - vm_compute. split; discriminate.
  - reflexivity.
Defined.

(** X3.  [maxSlots] panics exactly when the slot size is 0 and the
    memory left after the constants, as the wrapping subtraction gives
    it, is not negative: the division by zero is reached. *)
Theorem maxSlots_panics_iff {enum_kernel : Type}
    (C : powm_odd_export enum_kernel) (g : gpumathsEnv) (memSize : Z)
    (op : enum_kernel) :
  ~ returns (maxSlots C g memSize op)
  <-> 0 <= GoInt.sub memSize (getConstantsSize C g op)
      /\ slotSize C g op = 0.
Proof.
  unfold maxSlots, GoInt.div.
  destruct (Z.ltb_spec (GoInt.sub memSize (getConstantsSize C g op)) 0);
    [simpl; split; [tauto | lia] |].
  destruct (Z.eqb_spec (slotSize C g op) 0); simpl; split; try tauto; lia.
Qed.

(** X4.  Without wrap-around and with a positive slot size, a larger
    budget never gives fewer slots. *)
Theorem maxSlots_monotone {enum_kernel : Type}
    (C : powm_odd_export enum_kernel) (g : gpumathsEnv) (B1 B2 : Z)
    (op : enum_kernel) :
  0 < slotSize C g op ->
  B1 <= B2 ->
  GoInt.min_int <= B1 - getConstantsSize C g op ->
  B2 - getConstantsSize C g op <= GoInt.max_int ->
  exists m1 m2,
    maxSlots C g B1 op = Ret m1 /\ maxSlots C g B2 op = Ret m2 /\ m1 <= m2.
Proof.
  intros Hslot HB Hlo Hhi.
  exists (Z.max 0 ((B1 - getConstantsSize C g op) / slotSize C g op)),
         (Z.max 0 ((B2 - getConstantsSize C g op) / slotSize C g op)).
  split; [apply maxSlots_no_wrap; [lia | exact Hslot] |].
  split; [apply maxSlots_no_wrap; [lia | exact Hslot] |].
  assert ((B1 - getConstantsSize C g op) / slotSize C g op
          <= (B2 - getConstantsSize C g op) / slotSize C g op)
    by (apply Z.div_le_mono; lia).
  lia.
Qed.

Lemma maxSlots_monotone_witness :
  exists m1 m2,
    maxSlots sample_export gpumaths2048 4096 1 = Ret m1
    /\ maxSlots sample_export gpumaths2048 65536 1 = Ret m2
    /\ m1 <= m2.
Proof.
  apply (maxSlots_monotone sample_export gpumaths2048 4096 65536 1).
  - reflexivity.
  - lia.
  - vm_compute. discriminate.
  - vm_compute. discriminate.
Defined.

(** ** Streams over the native library *)

(** The loop of [createStreams] when it ends without an error. *)
Lemma createStreams_loop_ok count :
  forall info capacity streams w,
    (createStreams_loop count info capacity streams w).1.2 = None ->
    exists cs,
      Native.calls (createStreams_loop count info capacity streams w).2
      = Native.calls w ++ cs
      /\ length cs = count
      /\ Native.destroyed cs = []
      /\ Native.failures cs = []
      /\ Forall (fun c => exists r, c = Native.CreateStream info r) cs
      /\ (createStreams_loop count info capacity streams w).1.1
         = Some (streams
                 ++ map (fun h => {| s := h; memSize := capacity |})
                        (Native.created cs))
      /\ Native.live (createStreams_loop count info capacity streams w).2
         = list_to_set (Native.created cs) ∪ Native.live w
      /\ Native.refuses (createStreams_loop count info capacity streams w).2
         = Native.refuses w
      /\ (forall h, h ∈ Native.created cs -> (Native.fresh w <= h)%positive).
Proof.
  induction count as [| count IH]; intros info capacity streams w.
  - intros _. exists []. simpl. rewrite !app_nil_r.
    repeat split; try reflexivity; try set_solver; try constructor.
  - rewrite createStreams_loop_step. cbv zeta.
    destruct (createStream_facts info w)
      as (Hcalls & Href & Hlive & Hfresh & Hres & _).
    destruct (Native.createStream info w) as [r w1]. cbn [fst snd] in *.
    destruct (Native.error r) as [e |] eqn:Herr; [discriminate |].
    set (streams1 := match Native.result r with
                     | Some p => streams ++ [{| s := p; memSize := capacity |}]
                     | None => streams
                     end).
    assert (Hs1 : streams1
                  = streams ++ map (fun h => {| s := h; memSize := capacity |})
                                   (option_list (Native.result r))).
    { subst streams1. destruct (Native.result r); simpl; [reflexivity |].
      now rewrite app_nil_r. }
    intros Hok. destruct (IH info capacity streams1 w1 Hok)
      as (cs & Hc & Hlen & Hd & Hf & Hall & Hr & Hl & Hrf & Hfr).
    exists (Native.CreateStream info r :: cs).
    assert (Hc1 : Native.created (Native.CreateStream info r :: cs)
                  = option_list (Native.result r) ++ Native.created cs)
      by reflexivity.
    rewrite Hc1.
    split; [rewrite Hc, Hcalls; now rewrite <- app_assoc |].
    split; [simpl; now rewrite Hlen |].
    split; [exact Hd |].
    split; [simpl; now rewrite Herr, Hf |].
    split; [constructor; [eauto | exact Hall] |].
    split; [rewrite Hr, Hs1, map_app; now rewrite <- app_assoc |].
    split; [rewrite Hl, Hlive, list_to_set_app_L; set_solver |].
    split; [now rewrite Hrf, Href |].
    intros h Hh. apply elem_of_app in Hh as [Hh | Hh].
    + apply Hres in Hh as [-> _]. lia.
    + specialize (Hfr h Hh). lia.
Qed.

(** The loop of [createStreams] when the coming [count] creations all
    allocate a context and report no error. *)
Lemma createStreams_loop_all_created count :
  forall info capacity streams w,
    (forall c, c ∈ take count (Native.script w) ->
               Native.allocates c = true /\ Native.reports c = None) ->
    exists hs,
      length hs = count /\ NoDup hs
      /\ (forall h, h ∈ hs -> (Native.fresh w <= h)%positive)
      /\ (createStreams_loop count info capacity streams w).1
         = (Some (streams ++ map (fun h => {| s := h; memSize := capacity |}) hs),
            None)
      /\ Native.live (createStreams_loop count info capacity streams w).2
         = list_to_set hs ∪ Native.live w
      /\ Native.calls (createStreams_loop count info capacity streams w).2
         = Native.calls w
           ++ map (fun h => Native.CreateStream info
                              {| Native.result := Some h; Native.error := None |})
                  hs.
Proof.
  induction count as [| count IH]; intros info capacity streams w Hscript.
  - exists []. simpl. rewrite !app_nil_r.
    repeat split; try reflexivity; try set_solver; try constructor.
  - rewrite createStreams_loop_step. cbv zeta.
    destruct (createStream_facts info w)
      as (Hcalls & _ & Hlive & Hfresh & Hres & Hsc & Hresult & Herror).
    assert (Hnext : Native.allocates (Native.next_creation w) = true
                    /\ Native.reports (Native.next_creation w) = None).
    { unfold Native.next_creation.
      destruct (Native.script w) as [| c rest]; [split; reflexivity |].
      apply Hscript. simpl. set_solver. }
    destruct Hnext as [Halloc Hrep]. rewrite Halloc in Hresult.
    rewrite Hrep in Herror.
    destruct (Native.createStream info w) as [r w1]. cbn [fst snd] in *.
    rewrite Herror, Hresult.
    destruct (IH info capacity
                 (streams ++ [{| s := Native.fresh w; memSize := capacity |}]) w1)
      as (hs & Hlen & Hnd & Hfr & Hr & Hl & Hc).
    { intros c Hc. apply Hscript. rewrite Hsc in Hc.
      destruct (Native.script w) as [| c0 rest]; simpl in *; [| set_solver].
      rewrite take_nil in Hc. set_solver. }
    assert (Hlt : (Native.fresh w < Native.fresh w1)%positive).
    { apply (Hres (Native.fresh w)). rewrite Hresult. simpl. set_solver. }
    exists (Native.fresh w :: hs).
    split; [simpl; now rewrite Hlen |].
    split.
    { constructor; [| exact Hnd]. intros Hin. specialize (Hfr _ Hin). lia. }
    split.
    { intros h Hh. apply elem_of_cons in Hh as [-> | Hh]; [lia |].
      specialize (Hfr _ Hh). lia. }
    split; [rewrite Hr; simpl; now rewrite <- app_assoc |].
    split; [rewrite Hl, Hlive, Hresult; simpl; set_solver |].
    rewrite Hc, Hcalls. simpl. rewrite <- app_assoc. simpl.
    destruct r as [res err]. simpl in *. now subst.
Qed.

Lemma map_s_streams capacity hs :
  map s (map (fun h => {| s := h; memSize := capacity |}) hs) = hs.
Proof. rewrite List.map_map. simpl. apply List.map_id. Qed.

(** X5.  For a count that [make] accepts, when the coming [numStreams]
    creations all allocate a context and report no error,
    [createStreams] returns exactly [numStreams]
    streams and a nil error: the streams have [memSize = capacity] and
    pairwise distinct contexts, these contexts are added to the live
    ones, and the only native calls are [numStreams] calls of
    [createStream] with the capacity as [size_t]. *)
Theorem createStreams_all_created (max_cap numStreams capacity : Z)
    (w : Native.world) :
  0 <= numStreams <= max_cap ->
  (forall c, c ∈ take (Z.to_nat numStreams) (Native.script w) ->
             Native.allocates c = true /\ Native.reports c = None) ->
  exists streams w',
    createStreams max_cap numStreams capacity w
    = Ret ((Some streams, None), w')
    /\ len streams = numStreams
    /\ Forall (fun st => memSize st = capacity) streams
    /\ NoDup (map s streams)
    /\ Native.live w' = list_to_set (map s streams) ∪ Native.live w
    /\ Native.calls w'
       = Native.calls w
         ++ map (fun st => Native.CreateStream
                             {| Native.capacity := capacity mod 2 ^ 64 |}
                             {| Native.result := Some (s st);
                                Native.error := None |}) streams.
Proof.
  intros [Hn Hmax] Hscript. unfold createStreams.
  destruct (Z.ltb_spec numStreams 0); [lia |].
  destruct (Z.ltb_spec max_cap numStreams); [lia |]. cbn [orb].
  set (info := {| Native.capacity := capacity mod 2 ^ 64 |}).
  destruct (createStreams_loop_all_created (Z.to_nat numStreams) info capacity
              [] w Hscript) as (hs & Hlen & Hnd & _ & Hr & Hl & Hc).
  destruct (createStreams_loop (Z.to_nat numStreams) info capacity [] w)
    as [res w']. cbn [fst snd] in *. subst res.
  eexists _, w'. split; [reflexivity |]. simpl app.
  split; [unfold len; rewrite length_map; lia |].
  split; [apply Forall_forall; intros st Hst;
          apply list_elem_of_In, in_map_iff in Hst as (h & <- & _); reflexivity |].
  rewrite map_s_streams.
  split; [exact Hnd |]. split; [exact Hl |].
  rewrite Hc, List.map_map. reflexivity.
Qed.

Lemma createStreams_all_created_witness :
  exists streams w',
    createStreams sample_max_cap 2 65536 (device [created_ok] never_refuses)
    = Ret ((Some streams, None), w')
    /\ len streams = 2
    /\ Forall (fun st => memSize st = 65536) streams
    /\ NoDup (map s streams)
    /\ Native.live w'
       = list_to_set (map s streams)
         ∪ Native.live (device [created_ok] never_refuses)
    /\ Native.calls w'
       = Native.calls (device [created_ok] never_refuses)
         ++ map (fun st => Native.CreateStream
                             {| Native.capacity := 65536 mod 2 ^ 64 |}
                             {| Native.result := Some (s st);
                                Native.error := None |}) streams.
Proof.
  apply (createStreams_all_created sample_max_cap 2 65536
           (device [created_ok] never_refuses)).
  - vm_compute. split; discriminate.
  - intros c Hc. simpl in Hc. apply list_elem_of_singleton in Hc as ->.
    split; reflexivity.
Defined.

(** X6.  Whenever [createStreams] returns a nil error, it has made
    exactly [numStreams] calls of [createStream] and no call of
    [destroyStream], and the slice holds exactly the contexts those
    calls returned, in call order, each with [memSize = capacity]; a
    call that returns neither a context nor an error leaves the slice
    shorter than [numStreams] without any error. *)
Theorem createStreams_nil_error_shape (max_cap numStreams capacity : Z)
    (w w' : Native.world) (r : option (list Stream)) :
  createStreams max_cap numStreams capacity w = Ret ((r, None), w') ->
  exists cs,
    Native.calls w' = Native.calls w ++ cs
    /\ length cs = Z.to_nat numStreams
    /\ Native.destroyed cs = []
    /\ Forall (fun c => exists res,
                   c = Native.CreateStream
                         {| Native.capacity := capacity mod 2 ^ 64 |} res) cs
    /\ r = Some (map (fun h => {| s := h; memSize := capacity |})
                     (Native.created cs))
    /\ Native.live w' = list_to_set (Native.created cs) ∪ Native.live w.
Proof.
  unfold createStreams.
  destruct ((numStreams <? 0) || (max_cap <? numStreams)); [discriminate |].
  set (info := {| Native.capacity := capacity mod 2 ^ 64 |}).
  intros [= Hloop].
  destruct (createStreams_loop_ok (Z.to_nat numStreams) info capacity [] w)
    as (cs & Hc & Hlen & Hd & _ & Hall & Hr & Hl & _);
    [now rewrite Hloop |].
  rewrite Hloop in *. cbn [fst snd] in *.
  exists cs. repeat split; assumption.
Qed.

Lemma createStreams_nil_error_shape_witness :
  exists cs,
    Native.calls
      (createStreams_loop 3 {| Native.capacity := 65536 mod 2 ^ 64 |} 65536 []
         (device [created_ok; creates_nothing; created_ok] never_refuses)).2
    = Native.calls (device [created_ok; creates_nothing; created_ok] never_refuses)
      ++ cs
    /\ length cs = Z.to_nat 3
    /\ Native.destroyed cs = []
    /\ Forall (fun c => exists res,
                   c = Native.CreateStream
                         {| Native.capacity := 65536 mod 2 ^ 64 |} res) cs
    /\ Some [{| s := 1%positive; memSize := 65536 |};
             {| s := 2%positive; memSize := 65536 |}]
       = Some (map (fun h => {| s := h; memSize := 65536 |}) (Native.created cs))
    /\ Native.live
         (createStreams_loop 3 {| Native.capacity := 65536 mod 2 ^ 64 |} 65536 []
            (device [created_ok; creates_nothing; created_ok] never_refuses)).2
       = list_to_set (Native.created cs)
         ∪ Native.live (device [created_ok; creates_nothing; created_ok]
                          never_refuses).
Proof.
  apply (createStreams_nil_error_shape sample_max_cap 3 65536
           (device [created_ok; creates_nothing; created_ok] never_refuses)).
  reflexivity.
Defined.

(** X7.  When none of the destructions is refused, [destroyStreams]
    returns nil after passing every stream of the slice to
    [destroyStream] once, in slice order, and the live contexts are the
    former ones without those of the slice. *)
Theorem destroyStreams_destroys_all (streams : list Stream) (w : Native.world) :
  (forall st, st ∈ streams -> Native.refuses w (s st) = None) ->
  exists w',
    destroyStreams streams w = (None, w')
    /\ Native.calls w'
       = Native.calls w
         ++ map (fun st => Native.DestroyStream (s st) None) streams
    /\ Native.live w' = Native.live w ∖ list_to_set (map s streams).
Proof.
  intros Hok. exists (destroy_each streams w).
  split; [now apply destroyStreams_all_ok |].
  split.
  - rewrite destroy_each_calls. f_equal. unfold destroy_calls.
    rewrite List.map_map. apply List.map_ext_in.
    intros st Hst. now rewrite Hok by now apply list_elem_of_In.
  - apply destroy_each_live. intros h Hh.
    apply list_elem_of_In, in_map_iff in Hh as (st & <- & Hst).
    now apply Hok, list_elem_of_In.
Qed.

Lemma destroyStreams_destroys_all_witness :
  exists w',
    destroyStreams [{| s := 1%positive; memSize := 65536 |};
                    {| s := 2%positive; memSize := 65536 |}]
      (createStreams_loop 2 {| Native.capacity := 65536 |} 65536 []
         (device [] never_refuses)).2
    = (None, w')
    /\ Native.calls w'
       = Native.calls
           (createStreams_loop 2 {| Native.capacity := 65536 |} 65536 []
              (device [] never_refuses)).2
         ++ map (fun st => Native.DestroyStream (s st) None)
                [{| s := 1%positive; memSize := 65536 |};
                 {| s := 2%positive; memSize := 65536 |}]
    /\ Native.live w'
       = Native.live
           (createStreams_loop 2 {| Native.capacity := 65536 |} 65536 []
              (device [] never_refuses)).2
         ∖ list_to_set (map s [{| s := 1%positive; memSize := 65536 |};
                                {| s := 2%positive; memSize := 65536 |}]).
Proof.
  apply destroyStreams_destroys_all. intros st _. reflexivity.
Defined.

(** X8.  When the destruction of a stream is refused and none before it
    is, [destroyStreams] returns that error after passing the streams
    up to and including the refused one to [destroyStream]; the streams
    after it are not passed, and only the contexts of the streams
    before it leave the live set. *)
Theorem destroyStreams_returns_first_refusal (pre post : list Stream)
    (st : Stream) (w : Native.world) (e : string) :
  (forall st', st' ∈ pre -> Native.refuses w (s st') = None) ->
  Native.refuses w (s st) = Some e ->
  exists w',
    destroyStreams (pre ++ st :: post) w = (Some e, w')
    /\ Native.calls w'
       = Native.calls w
         ++ map (fun st' => Native.DestroyStream (s st') None) pre
         ++ [Native.DestroyStream (s st) (Some e)]
    /\ Native.live w' = Native.live w ∖ list_to_set (map s pre).
Proof.
  intros Hok Hst. exists (destroy_each (pre ++ [st]) w).
  split; [now apply destroyStreams_first_refusal |].
  assert (Hsplit : destroy_each (pre ++ [st]) w
                   = snd (Native.destroyStream (s st) (destroy_each pre w)))
    by (unfold destroy_each; now rewrite fold_left_app).
  rewrite Hsplit. simpl. rewrite destroy_each_refuses, Hst.
  split.
  - rewrite destroy_each_calls, <- app_assoc. f_equal. f_equal.
    unfold destroy_calls. rewrite List.map_map. apply List.map_ext_in.
    intros st' Hst'. now rewrite Hok by now apply list_elem_of_In.
  - apply destroy_each_live. intros h Hh.
    apply list_elem_of_In, in_map_iff in Hh as (st' & <- & Hst').
    now apply Hok, list_elem_of_In.
Qed.

Lemma destroyStreams_returns_first_refusal_witness :
  exists w',
    destroyStreams ([{| s := 1%positive; memSize := 65536 |}]
                    ++ {| s := 2%positive; memSize := 65536 |}
                       :: [{| s := 3%positive; memSize := 65536 |}])
      (createStreams_loop 3 {| Native.capacity := 65536 |} 65536 []
         (device [] (refuses_only 2%positive "invalid resource handle"))).2
    = (Some "invalid resource handle"%string, w')
    /\ Native.calls w'
       = Native.calls
           (createStreams_loop 3 {| Native.capacity := 65536 |} 65536 []
              (device [] (refuses_only 2%positive "invalid resource handle"))).2
         ++ map (fun st' => Native.DestroyStream (s st') None)
                [{| s := 1%positive; memSize := 65536 |}]
         ++ [Native.DestroyStream 2%positive (Some "invalid resource handle"%string)]
    /\ Native.live w'
       = Native.live
           (createStreams_loop 3 {| Native.capacity := 65536 |} 65536 []
              (device [] (refuses_only 2%positive "invalid resource handle"))).2
         ∖ list_to_set (map s [{| s := 1%positive; memSize := 65536 |}]).
Proof.
  apply (destroyStreams_returns_first_refusal
           [{| s := 1%positive; memSize := 65536 |}]
           [{| s := 3%positive; memSize := 65536 |}]
           {| s := 2%positive; memSize := 65536 |}).
  - intros st' Hst'. apply list_elem_of_singleton in Hst' as ->. reflexivity.
  - reflexivity.
Defined.

(** X9.  Streams that [createStreams] returned with a nil error, passed
    to [destroyStreams] on a library that refuses none of them, are all
    destroyed: [destroyStreams] returns nil and the live contexts are
    again those from before [createStreams]. *)
Theorem create_then_destroy_restores_device (max_cap numStreams capacity : Z)
    (w w1 : Native.world) (streams : list Stream) :
  Native.consistent w ->
  createStreams max_cap numStreams capacity w
  = Ret ((Some streams, None), w1) ->
  (forall st, st ∈ streams -> Native.refuses w (s st) = None) ->
  exists w2,
    destroyStreams streams w1 = (None, w2) /\ Native.live w2 = Native.live w.
Proof.
  intros Hw Hcreate Hok. unfold createStreams in Hcreate.
  destruct ((numStreams <? 0) || (max_cap <? numStreams)); [discriminate |].
  set (info := {| Native.capacity := capacity mod 2 ^ 64 |}) in *.
  injection Hcreate as Hloop.
  destruct (createStreams_loop_ok (Z.to_nat numStreams) info capacity [] w)
    as (cs & _ & _ & _ & _ & _ & Hr & Hl & Href & Hfr);
    [now rewrite Hloop |].
  rewrite Hloop in *. cbn [fst snd] in *. injection Hr as ->.
  exists (destroy_each
            (map (fun h => {| s := h; memSize := capacity |}) (Native.created cs))
            w1).
  split.
  - apply destroyStreams_all_ok. intros st Hst. rewrite Href. now apply Hok.
  - rewrite destroy_each_live.
    + rewrite Hl, map_s_streams.
      assert (Hdisj : forall h, h ∈ Native.created cs -> h ∉ Native.live w).
      { intros h Hh Hin. specialize (Hfr h Hh). specialize (Hw h Hin). lia. }
      set_solver.
    + intros h Hh. rewrite Href.
      apply list_elem_of_In, in_map_iff in Hh as (st & <- & Hst).
      now apply Hok, list_elem_of_In.
Qed.

Lemma create_then_destroy_restores_device_witness :
  exists w2,
    destroyStreams [{| s := 1%positive; memSize := 65536 |};
                    {| s := 2%positive; memSize := 65536 |}]
      (createStreams_loop 2 {| Native.capacity := 65536 mod 2 ^ 64 |} 65536 []
         (device [] never_refuses)).2
    = (None, w2)
    /\ Native.live w2 = Native.live (device [] never_refuses).
Proof.
  apply (create_then_destroy_restores_device sample_max_cap 2 65536
           (device [] never_refuses)).
  - intros h Hh. simpl in Hh. set_solver.
  - reflexivity.
  - intros st _. reflexivity.
Defined.

(** ** Environments *)

Lemma chooseEnv_Ret_fits g env :
  chooseEnv g = Ret env -> BitLen (GetP g) <= getBitLen env.
Proof.
  unfold chooseEnv. simpl getBitLen.
  destruct (Z.leb_spec (BitLen (GetP g)) 2048);
    [intros [= <-]; simpl; lia |].
  destruct (Z.leb_spec (BitLen (GetP g)) 3200);
    [intros [= <-]; simpl; lia |].
  destruct (Z.leb_spec (BitLen (GetP g)) 4096);
    [intros [= <-]; simpl; lia | discriminate].
Qed.

(** X10.  [chooseEnv] is monotone: when it returns for a group, it
    returns for every group whose prime is not longer, with an
    environment that is not wider. *)
Theorem chooseEnv_monotone (g1 g2 : Group) :
  BitLen (GetP g1) <= BitLen (GetP g2) ->
  returns (chooseEnv g2) ->
  exists env1 env2,
    chooseEnv g1 = Ret env1 /\ chooseEnv g2 = Ret env2
    /\ getBitLen env1 <= getBitLen env2.
Proof.
  unfold chooseEnv. simpl getBitLen. intros Hle.
  destruct (Z.leb_spec (BitLen (GetP g2)) 2048);
    [| destruct (Z.leb_spec (BitLen (GetP g2)) 3200);
       [| destruct (Z.leb_spec (BitLen (GetP g2)) 4096); [| intros []]]];
    intros _;
    destruct (Z.leb_spec (BitLen (GetP g1)) 2048); try lia;
    try (eexists _, _; split; [reflexivity |]; split; [reflexivity |];
         simpl; lia);
    destruct (Z.leb_spec (BitLen (GetP g1)) 3200); try lia;
    try (eexists _, _; split; [reflexivity |]; split; [reflexivity |];
         simpl; lia);
    destruct (Z.leb_spec (BitLen (GetP g1)) 4096); try lia;
    eexists _, _; split; [reflexivity |]; split; [reflexivity |]; simpl; lia.
Qed.

Lemma chooseEnv_monotone_witness :
  exists env1 env2,
    chooseEnv {| GetP := 2 ^ 2047 |} = Ret env1
    /\ chooseEnv {| GetP := 2 ^ 3000 |} = Ret env2
    /\ getBitLen env1 <= getBitLen env2.
Proof.
  apply (chooseEnv_monotone {| GetP := 2 ^ 2047 |} {| GetP := 2 ^ 3000 |}).
  - vm_compute. discriminate.
  - vm_compute. exact I.
Defined.

(** X11.  The environment [chooseEnv] returns holds the group: every
    nonnegative value below the prime is below [2 ^ getBitLen], which
    is [256 ^ getByteLen], so it has at most [getByteLen] bytes. *)
Theorem chooseEnv_holds_group_values (g : Group) (env : gpumathsEnv) (x : Z) :
  chooseEnv g = Ret env ->
  0 <= x < GetP g ->
  x < 2 ^ getBitLen env /\ 2 ^ getBitLen env = 256 ^ getByteLen env.
Proof.
  intros Hret [Hx Hlt]. apply chooseEnv_Ret_fits in Hret.
  split; [| destruct env; reflexivity].
  unfold BitLen in Hret. destruct (Z.eqb_spec (GetP g) 0); [lia |].
  rewrite Z.abs_eq in Hret by lia.
  assert (GetP g < 2 ^ getBitLen env)
    by (apply Z.log2_lt_pow2; lia).
  lia.
Qed.

Lemma chooseEnv_holds_group_values_witness :
  2 ^ 2040 < 2 ^ getBitLen gpumaths2048
  /\ 2 ^ getBitLen gpumaths2048 = 256 ^ getByteLen gpumaths2048.
Proof.
  apply (chooseEnv_holds_group_values {| GetP := 2 ^ 2047 |} gpumaths2048).
  - vm_compute. reflexivity.
  - vm_compute. split; [discriminate | reflexivity].
Defined.

(** ** Serialization *)

Lemma byte_value_bounds b : 0 <= byte_value b < 256.
Proof.
  unfold byte_value. pose proof (Byte.to_N_bounded b) as Hb.
  pose proof (N2Z.is_nonneg (Byte.to_N b)) as Hpos.
  apply N2Z.inj_le in Hb. change (Z.of_N 255) with 255 in Hb. lia.
Qed.

Lemma le_value_app l1 l2 :
  le_value (l1 ++ l2) = le_value l1 + 256 ^ len l1 * le_value l2.
Proof.
  unfold len. induction l1 as [| b l1 IH]; simpl length.
  - simpl. lia.
  - change (le_value ((b :: l1) ++ l2))
      with (byte_value b + 256 * le_value (l1 ++ l2)).
    change (le_value (b :: l1)) with (byte_value b + 256 * le_value l1).
    rewrite IH, Nat2Z.inj_succ, Z.pow_succ_r by lia. lia.
Qed.

Lemma le_value_bounds l : 0 <= le_value l < 256 ^ len l.
Proof.
  unfold len. induction l as [| b l IH]; simpl length.
  - simpl. lia.
  - change (le_value (b :: l)) with (byte_value b + 256 * le_value l).
    pose proof (byte_value_bounds b).
    rewrite Nat2Z.inj_succ, Z.pow_succ_r by lia. lia.
Qed.

Lemma le_value_zeros k : le_value (replicate k x00) = 0.
Proof.
  induction k as [| k IH]; [reflexivity |].
  change (le_value (replicate (S k) x00))
    with (byte_value x00 + 256 * le_value (replicate k x00)).
  rewrite IH. reflexivity.
Qed.

Lemma be_value_snoc l b : be_value (l ++ [b]) = 256 * be_value l + byte_value b.
Proof. unfold be_value. now rewrite fold_left_app. Qed.

(** Reading a reversed string least significant byte first gives the
    number of the string read most significant byte first. *)
Lemma le_value_reverse l : le_value (reverse l) = be_value l.
Proof.
  induction l as [| b l IH] using rev_ind; [reflexivity |].
  rewrite reverse_app, be_value_snoc, <- IH.
  change (reverse [b] ++ reverse l) with (b :: reverse l).
  change (le_value (b :: reverse l))
    with (byte_value b + 256 * le_value (reverse l)).
  lia.
Qed.

Lemma le_value_take (l : list byte) (k : nat) :
  (k <= length l)%nat ->
  le_value (take k l) = le_value l mod 256 ^ Z.of_nat k.
Proof.
  intros Hk. rewrite <- (take_drop k l) at 2. rewrite le_value_app.
  pose proof (le_value_bounds (take k l)) as Hb.
  assert (Hlen : len (take k l) = Z.of_nat k)
    by (unfold len; rewrite length_take; lia).
  rewrite Hlen in *.
  replace (le_value (take k l) + 256 ^ Z.of_nat k * le_value (drop k l))
    with (le_value (take k l) + le_value (drop k l) * 256 ^ Z.of_nat k) by lia.
  rewrite Z_mod_plus_full. symmetry. now apply Z.mod_small.
Qed.

(** X12.  In a destination that is long enough, [putInt] keeps the
    number: the bytes it wrote, read least significant byte first, give
    the number the source denotes most significant byte first.  The
    field of width [n] alone holds that number modulo [256 ^ n]: all of
    it when the source has at most [n] bytes, its low [n] bytes when
    the source is longer. *)
Theorem putInt_keeps_value (dst src : list byte) (n : Z) :
  Z.max (len src) n <= len dst ->
  exists dst',
    putInt dst src n = Ret dst'
    /\ le_value (take (Z.to_nat (Z.max (len src) n)) dst') = be_value src
    /\ (0 <= n ->
        le_value (take (Z.to_nat n) dst') = be_value src mod 256 ^ n)
    /\ (len src <= n -> le_value (take (Z.to_nat n) dst') = be_value src).
Proof.
  intros Hfit. eexists. split; [now apply putInt_result |].
  set (zeros := replicate (Z.to_nat (n - len src)) x00).
  set (rest := drop (Z.to_nat (Z.max (len src) n)) dst).
  assert (Hlen : length (reverse src ++ zeros)
                 = Z.to_nat (Z.max (len src) n)).
  { subst zeros. rewrite length_app, length_reverse, length_replicate.
    unfold len. lia. }
  assert (Hwritten : le_value (reverse src ++ zeros) = be_value src).
  { subst zeros. rewrite le_value_app, le_value_zeros, le_value_reverse. lia. }
  assert (Hall : le_value (take (Z.to_nat (Z.max (len src) n))
                             (reverse src ++ zeros ++ rest))
                 = be_value src).
  { rewrite app_assoc, take_app_length' by (symmetry; exact Hlen).
    exact Hwritten. }
  assert (Hfield : 0 <= n ->
                   le_value (take (Z.to_nat n) (reverse src ++ zeros ++ rest))
                   = be_value src mod 256 ^ n).
  { intros Hn. rewrite app_assoc, take_app_le by lia.
    rewrite le_value_take by lia. rewrite Hwritten. f_equal. f_equal. lia. }
  split; [exact Hall |]. split; [exact Hfield |].
  intros Hshort. replace (Z.max (len src) n) with n in Hall by lia.
  exact Hall.
Qed.

Lemma putInt_keeps_value_witness :
  exists dst',
    putInt [xff; xff; xff; xff; xff] [x01; x02] 4 = Ret dst'
    /\ le_value (take (Z.to_nat (Z.max (len [x01; x02]) 4)) dst')
       = be_value [x01; x02]
    /\ (0 <= 4 -> le_value (take (Z.to_nat 4) dst') = be_value [x01; x02] mod 256 ^ 4)
    /\ (len [x01; x02] <= 4 ->
        le_value (take (Z.to_nat 4) dst') = be_value [x01; x02]).
Proof.
  apply (putInt_keeps_value [xff; xff; xff; xff; xff] [x01; x02] 4).
  vm_compute. discriminate.
Defined.

(** ** The tests *)

Lemma for_loop_fixed {St : Type} (body : Z -> St -> outcome St) (st : St) count :
  forall i,
    (forall j, i <= j < i + Z.of_nat count -> body j st = Ret st) ->
    for_loop count i body st = Ret st.
Proof.
  induction count as [| count IH]; intros i Hbody; [reflexivity |].
  simpl. rewrite Hbody by lia. rewrite bind_Ret. apply IH.
  intros j Hj. apply Hbody. lia.
Qed.

Lemma Get_in_range {Int : Type} (buffer : list Int) (i : Z) :
  0 <= i < len buffer -> exists x, Get buffer i = Ret x.
Proof.
  intros Hi. unfold Get.
  destruct (lookup_lt_is_Some_2 buffer (Z.to_nat i)) as [x ->]; [| eauto].
  unfold len in Hi. lia.
Qed.

(** X13.  The comparison loop of [TestElGamal] compares each GPU
    payload with itself, not with the CPU payload: with a comparison
    that finds a value equal to itself and buffers of at least
    [batchSize] entries, it reports no mismatch, whatever the GPU and
    CPU payloads are. *)
Theorem TestElGamal_reports_no_mismatch {Int : Type} (Cmp : Int -> Int -> Z)
    (batchSize : Z)
    (KeysPayloadGPU KeysPayloadCPU CypherPayloadGPU CypherPayloadCPU : list Int) :
  (forall x, Cmp x x = 0) ->
  batchSize <= len KeysPayloadGPU ->
  batchSize <= len KeysPayloadCPU ->
  batchSize <= len CypherPayloadGPU ->
  batchSize <= len CypherPayloadCPU ->
  compare_payloads Cmp batchSize
    KeysPayloadGPU KeysPayloadCPU CypherPayloadGPU CypherPayloadCPU
  = Ret [].
Proof.
  intros Hrefl H1 H2 H3 H4. unfold compare_payloads, for_range.
  apply for_loop_fixed. intros j Hj.
  destruct (Get_in_range KeysPayloadGPU j) as [kg ->]; [lia |].
  destruct (Get_in_range KeysPayloadCPU j) as [kc ->]; [lia |].
  destruct (Get_in_range CypherPayloadGPU j) as [cg ->]; [lia |].
  destruct (Get_in_range CypherPayloadCPU j) as [cc ->]; [lia |].
  unfold mbind, outcome_bind. cbv beta iota zeta.
  rewrite !Hrefl. reflexivity.
Qed.

Lemma TestElGamal_reports_no_mismatch_witness :
  compare_payloads Z_Cmp 2 [1; 2] [3; 4] [5; 6] [7; 8] = Ret [].
Proof.
  apply (TestElGamal_reports_no_mismatch Z_Cmp 2 [1; 2] [3; 4] [5; 6] [7; 8]).
  - intros x. unfold Z_Cmp. now rewrite Z.compare_refl.
  - unfold len. simpl. lia.
  - unfold len. simpl. lia.
  - unfold len. simpl. lia.
  - unfold len. simpl. lia.
Defined.
